(** * Optimizers of the 04-optimizers notebook

    A shallow embedding of the executable optimizer logic of
    [04-optimizers.ipynb]: the custom optimizer [SGD_Alternate] (momentum
    SGD without weight decay), the hyperparameter writes on
    [optimizer.param_groups], [train_epoch], the three definitions of
    [train_model] with their learning-rate decay and their checkpoint
    folder, and [test_model].  RMSProp and Adam are [torch.optim] code, which
    the notebook constructs and passes on; they are not embedded.

    Numbers.  Tensor entries and hyperparameters are [float]s in the
    notebook; here they are real numbers ([R]), so every statement is about
    the exact arithmetic the operations denote.  Rounding, infinities and NaN
    are outside the model.

    Tensors.  A tensor is the list of its entries, its shape is their
    number.  The in-place operations [add_] and [sub_] keep the shape of
    the tensor they update: the other operand has that shape or a single
    entry, which is then used at every position (broadcasting); otherwise
    they raise, which is the result [None] here. *)

From Stdlib Require Import Reals Lra.
From stdpp Require Import gmap strings list fin_maps.

Local Open Scope R_scope.

(** * Part I: the program *)

(** ** Tensors *)

Module Tensor.

Abbreviation t := (list R).

Definition same_shape (a b : t) : bool :=
  bool_decide (length a = length b).

(** [a * c] and [c * a] for a Python scalar [c], and the in-place
    [a.mul_(c)]: every entry is multiplied by [c]. *)
Definition mul (a : t) (c : R) : t := (λ x, x * c) <$> a.

(** The operand [b] of an in-place operation on [a], brought to the shape
    of [a]: a tensor of that shape as it is, a tensor with one entry
    repeated; any other shape raises [RuntimeError]. *)
Definition broadcast_to (a b : t) : option t :=
  if same_shape a b then Some b
  else match b with
       | [x] => Some (replicate (length a) x)
       | _ => None
       end.

(** [a.add_(b)]: element-wise sum into [a]. *)
Definition add_ (a b : t) : option t :=
  b' ← broadcast_to a b; Some (zip_with Rplus a b').

(** [a.sub_(b)]: element-wise difference into [a]. *)
Definition sub_ (a b : t) : option t :=
  b' ← broadcast_to a b; Some (zip_with Rminus a b').

End Tensor.

(** ** Parameters, groups, optimizer state *)

(** A parameter is a Python object: the model and the optimizer both refer to
    it, and [step] mutates it in place.  Objects live in a store indexed by
    their identity. *)
Definition ident : Type := nat.

Record Param : Type := mkParam {
  data : Tensor.t;
  grad : option Tensor.t       (* [None] is Python's [param.grad is None] *)
}.

Abbreviation store := (gmap ident Param).

(** [self.state[param]] is a dict from names to tensors; [self.state] is a
    [defaultdict(dict)] keyed by the parameter object. *)
Abbreviation record := (gmap string Tensor.t).
Abbreviation opt_state := (gmap ident record).

(** One entry of [param_groups]: the list under the key ["params"] and the
    remaining keys, the hyperparameters. *)
Record ParamGroup : Type := mkGroup {
  params : list ident;
  hyper  : gmap string R
}.

Record Optimizer : Type := mkOptimizer {
  param_groups : list ParamGroup;
  state        : opt_state
}.

(** ** Loops over Python lists, with exceptions *)

Fixpoint for_each {A S : Type} (body : S → A → option S) (l : list A) (s : S)
  : option S :=
  match l with
  | [] => Some s
  | x :: l' => s' ← body s x; for_each body l' s'
  end.

(** ** [SGD_Alternate] *)

Module SGD_Alternate.

(** [__init__(self, parameters, lr, momentum)] for a plain list of
    parameters: one group, with the two defaults as hyperparameters and an
    empty state.  The constructor of [torch.optim.Optimizer], to which the
    arguments are passed on, raises [ValueError] on an empty list. *)
Definition init (parameters : list ident) (lr momentum : R)
  : option Optimizer :=
  match parameters with
  | [] => None
  | _ :: _ =>
      Some {| param_groups :=
                [ {| params := parameters;
                     hyper  := <["lr" := lr]> (<["momentum" := momentum]> ∅) |} ];
              state := ∅ |}
  end.

(** The body of the inner loop of [step], for the parameter [p] of the
    group [pg].  The result [None] stands for a raised exception
    ([KeyError] on a missing hyperparameter, [RuntimeError] on a shape
    mismatch) or for an identity that refers to no object, which Python
    cannot produce.

    [M.mul_(..).add_(..)] mutates the tensor the state record refers to, so
    the record sees the new [M] without an assignment; in the first-use
    branch the assignment [state["momentum_buffer"] = M] stores it. *)
Definition update_param (pg : ParamGroup) (σ : opt_state * store) (p : ident)
  : option (opt_state * store) :=
  let '(st, h) := σ in
  prm ← h !! p;
  match grad prm with
  | None => Some (st, h)
  | Some g =>
      let rec := default ∅ (st !! p) in
      M ← match rec !! "momentum_buffer" with
          | Some M =>
              momentum ← hyper pg !! "momentum";
              let M1 := Tensor.mul M momentum in
              lr ← hyper pg !! "lr";
              Tensor.add_ M1 (Tensor.mul g lr)
          | None =>
              lr ← hyper pg !! "lr";
              Some (Tensor.mul g lr)
          end;
      d ← Tensor.sub_ (data prm) M;
      Some (<[p := <["momentum_buffer" := M]> rec]> st,
            <[p := {| data := d; grad := Some g |}]> h)
  end.

Definition step_group (σ : opt_state * store) (pg : ParamGroup)
  : option (opt_state * store) :=
  for_each (update_param pg) (params pg) σ.

(** [step(self)]: all groups in order, all parameters of a group in
    order. *)
Definition step (o : Optimizer) (h : store) : option (Optimizer * store) :=
  σ ← for_each step_group (param_groups o) (state o, h);
  Some ({| param_groups := param_groups o; state := σ.1 |}, σ.2).

End SGD_Alternate.

(** The momentum buffer the optimizer holds for a parameter, if any. *)
Definition momentum_buffer (o : Optimizer) (p : ident) : option Tensor.t :=
  state o !! p ≫= (.!! "momentum_buffer").

(** Every parameter the optimizer tracks, in the order [step] visits them. *)
Definition tracked (o : Optimizer) : list ident :=
  concat (params <$> param_groups o).

(** ** Writing hyperparameters *)

(** [optimizer.param_groups[i][name] = v], for an index [i] counted from
    the front and a key [name] other than ["params"]: the entry is replaced,
    or created when the group has no such key.  An index out of range raises
    [IndexError]. *)
Definition set_hyper (o : Optimizer) (i : nat) (name : string) (v : R)
  : option Optimizer :=
  pg ← param_groups o !! i;
  Some {| param_groups :=
            <[i := {| params := params pg;
                      hyper := <[name := v]> (hyper pg) |}]> (param_groups o);
          state := state o |}.

(** [optimizer.param_groups[i][name]], as [train_model] reads the learning
    rate it prints: [IndexError] or [KeyError] when there is no such group
    or no such entry. *)
Definition get_hyper (o : Optimizer) (i : nat) (name : string) : option R :=
  pg ← param_groups o !! i; hyper pg !! name.

(** [for pg in optimizer.param_groups: pg[name] = v] *)
Definition set_hyper_all (o : Optimizer) (name : string) (v : R) : Optimizer :=
  {| param_groups :=
       (λ pg, {| params := params pg; hyper := <[name := v]> (hyper pg) |})
         <$> param_groups o;
     state := state o |}.

(** What the notebook does with an optimizer, one call at a time. *)
Inductive action : Type :=
  | Step                                        (* [optimizer.step()] *)
  | SetHyper (i : nat) (name : string) (v : R). (* a hyperparameter write *)

Definition exec (s : Optimizer * store) (a : action)
  : option (Optimizer * store) :=
  match a with
  | Step => SGD_Alternate.step s.1 s.2
  | SetHyper i name v => o ← set_hyper s.1 i name v; Some (o, s.2)
  end.

Definition run (script : list action) (s : Optimizer * store)
  : option (Optimizer * store) :=
  for_each exec script s.

(** ** Learning-rate decay in [train_model]

    The second [train_model] of the notebook lowers the learning rate at
    the head of the body of its epoch loop: [if epoch in (6, 11): for pg in
    optimizer.param_groups: pg["lr"] *= .1].  The statement is embedded
    here on the groups; the loop around it follows with the training
    loops. *)

(** [pg["lr"] *= .1] *)
Definition decay_group (pg : ParamGroup) : option ParamGroup :=
  lr ← hyper pg !! "lr";
  Some {| params := params pg; hyper := <["lr" := lr * (1/10)]> (hyper pg) |}.

(** [for pg in optimizer.param_groups: pg["lr"] *= .1] *)
Definition decay_lr (gs : list ParamGroup) : option (list ParamGroup) :=
  mapM decay_group gs.

(** The head of the loop body. *)
Definition epoch_head (epoch : nat) (gs : list ParamGroup)
  : option (list ParamGroup) :=
  if bool_decide (epoch ∈ [6%nat; 11%nat]) then decay_lr gs else Some gs.

(** ** The training and testing loops

    [train_epoch], the first [train_model] and [test_model] call the model,
    the loss, the differentiation engine, the optimizer, the data loader and
    [AverageMeter], none of which the notebook defines.  They are taken as
    given operations on a world [W] that holds the model, the optimizer and
    the data loader; apart from [optimizer.step()] they are taken to
    return.  [X.to(device)] and the [print] calls are left out. *)

(** The exceptions the loops themselves can raise, and the one passed on
    from [optimizer.step()]. *)
Inductive exn : Type :=
  | TypeError | UnboundLocalError | NameError | KeyError | IndexError
  | StepRaised.

Inductive result (A : Type) : Type :=
  | Returned (a : A)
  | Raised (e : exn).
Arguments Returned {A} a.
Arguments Raised {A} e.

Definition result_bind {A B : Type} (r : result A) (k : A → result B)
  : result B :=
  match r with
  | Returned a => k a
  | Raised e => Raised e
  end.

(** [W]: worlds, [B]: mini-batches [(X, y)], [P]: predictions, [M]:
    [AverageMeter] objects. *)
Class Collaborators (W B P M : Type) : Type := {
  batches       : W → list B * W;   (* one iteration over [dataloader] *)
  zero_grad     : W → W;            (* [optimizer.zero_grad()] *)
  forward       : W → B → P;        (* [model(X)] *)
  backward      : W → B → W;        (* [loss.backward()] *)
  optimizer_step : W → option W;    (* [optimizer.step()] *)
  train_mode    : W → W;            (* [model.train()] *)
  eval_mode     : W → W;            (* [model.eval()] *)
  batch_size    : B → nat;          (* [X.shape[0]] *)
  groups        : W → list ParamGroup;      (* [optimizer.param_groups] *)
  with_groups   : list ParamGroup → W → W;  (* the groups, written in place *)
  scheduler_step : W → W;           (* [lr_scheduler.step()] *)
  AverageMeter  : M;                (* [AverageMeter()] *)
  update        : M → R → nat → M;  (* [meter.update(val, n)] *)
  meter_sum     : M → R;            (* [meter.sum] *)
  meter_avg     : M → R             (* [meter.avg] *)
}.

(** A call with positional arguments only, of a function whose parameters
    have no default: Python raises [TypeError] unless it gets one argument
    per parameter. *)
Definition call {A : Type} (parameters arguments : nat) (body : result A)
  : result A :=
  if bool_decide (arguments = parameters) then body else Raised TypeError.

Section training.
Context {W B P M : Type} `{!Collaborators W B P M}.

(** The body of the loop of [train_epoch] for one mini-batch. *)
Definition train_batch (loss_fn performance : P → B → R)
    (s : W * M * M) (b : B) : result (W * M * M) :=
  let '(w, loss_meter, performance_meter) := s in
  let w := zero_grad w in
  let y_hat := forward w b in
  let loss := loss_fn y_hat b in
  let w := backward w b in
  match optimizer_step w with
  | None => Raised StepRaised
  | Some w =>
      let acc := performance y_hat b in
      Returned (w, update loss_meter loss (batch_size b),
                update performance_meter acc (batch_size b))
  end.

Fixpoint train_batches (loss_fn performance : P → B → R)
    (dataloader : list B) (s : W * M * M) : result (W * M * M) :=
  match dataloader with
  | [] => Returned s
  | b :: rest =>
      result_bind (train_batch loss_fn performance s b)
        (train_batches loss_fn performance rest)
  end.

(** [train_epoch(model, dataloader, loss_fn, optimizer, loss_meter,
    performance_meter, performance, device)]: eight parameters. *)
Definition train_epoch (loss_fn performance : P → B → R)
    (w : W) (loss_meter performance_meter : M) : result (W * M * M) :=
  let '(dataloader, w) := batches w in
  train_batches loss_fn performance dataloader (w, loss_meter, performance_meter).

(** [return loss_meter.sum, performance_meter.avg] after the epoch loop: the
    two names are bound in the loop body only. *)
Definition return_meters (w : W) (meters : option (M * M))
  : result (W * (R * R)) :=
  match meters with
  | None => Raised UnboundLocalError
  | Some (loss_meter, performance_meter) =>
      Returned (w, (meter_sum loss_meter, meter_avg performance_meter))
  end.

(** The epoch loop of the first [train_model], called with the default
    [checkpoint_loc=None] as everywhere in the notebook: no folder is made
    and no checkpoint is written.  The call of [train_epoch] passes eight
    arguments. *)
Fixpoint train_epochs (loss_fn performance : P → B → R)
    (epochs : list nat) (w : W) (meters : option (M * M))
  : result (W * option (M * M)) :=
  match epochs with
  | [] => Returned (w, meters)
  | _ :: rest =>
      let loss_meter := AverageMeter in
      let performance_meter := AverageMeter in
      result_bind
        (call 8 8 (train_epoch loss_fn performance w
                     loss_meter performance_meter))
        (λ '(w, loss_meter, performance_meter),
           train_epochs loss_fn performance rest w
             (Some (loss_meter, performance_meter)))
  end.

Definition train_model (loss_fn performance : P → B → R) (w : W)
    (num_epochs : nat) : result (W * (R * R)) :=
  let w := train_mode w in
  result_bind (train_epochs loss_fn performance (seq 0 num_epochs) w None)
    (λ '(w, meters), return_meters w meters).

(** [if epoch in (6, 11): for pg in optimizer.param_groups: pg["lr"] *= .1]
    on the world. *)
Definition decay_head (epoch : nat) (w : W) : result W :=
  match epoch_head epoch (groups w) with
  | Some gs => Returned (with_groups gs w)
  | None => Raised KeyError
  end.

(** The epoch loop of the second [train_model], with the default
    [checkpoint_loc=None].  Its call of [train_epoch] passes seven
    arguments: [device] is left out. *)
Fixpoint train_epochs_decay (loss_fn performance : P → B → R)
    (epochs : list nat) (w : W) (meters : option (M * M))
  : result (W * option (M * M)) :=
  match epochs with
  | [] => Returned (w, meters)
  | epoch :: rest =>
      result_bind (decay_head epoch w) (λ w,
      let loss_meter := AverageMeter in
      let performance_meter := AverageMeter in
      result_bind
        (call 8 7 (train_epoch loss_fn performance w
                     loss_meter performance_meter))
        (λ '(w, loss_meter, performance_meter),
           train_epochs_decay loss_fn performance rest w
             (Some (loss_meter, performance_meter))))
  end.

Definition train_model_decay (loss_fn performance : P → B → R) (w : W)
    (num_epochs : nat) : result (W * (R * R)) :=
  let w := train_mode w in
  result_bind
    (train_epochs_decay loss_fn performance (seq 0 num_epochs) w None)
    (λ '(w, meters), return_meters w meters).

(** [optimizer.param_groups[0]['lr']], read for the [print] of the third
    [train_model]. *)
Definition read_lr (w : W) : result R :=
  match groups w !! 0%nat with
  | None => Raised IndexError
  | Some pg =>
      match hyper pg !! "lr" with
      | None => Raised KeyError
      | Some lr => Returned lr
      end
  end.

(** The epoch loop of the third [train_model], with the default
    [checkpoint_loc=None]; [lr_scheduler] is [true] when a scheduler is
    passed.  Its call of [train_epoch] passes seven arguments as well. *)
Fixpoint train_epochs_scheduler (loss_fn performance : P → B → R)
    (lr_scheduler : bool) (epochs : list nat) (w : W)
    (meters : option (M * M)) : result (W * option (M * M)) :=
  match epochs with
  | [] => Returned (w, meters)
  | _ :: rest =>
      let loss_meter := AverageMeter in
      let performance_meter := AverageMeter in
      result_bind (read_lr w) (λ _,
      result_bind
        (call 8 7 (train_epoch loss_fn performance w
                     loss_meter performance_meter))
        (λ '(w, loss_meter, performance_meter),
           let w := if lr_scheduler then scheduler_step w else w in
           train_epochs_scheduler loss_fn performance lr_scheduler rest w
             (Some (loss_meter, performance_meter))))
  end.

Definition train_model_scheduler (loss_fn performance : P → B → R)
    (lr_scheduler : bool) (w : W) (num_epochs : nat)
  : result (W * (R * R)) :=
  let w := train_mode w in
  result_bind
    (train_epochs_scheduler loss_fn performance lr_scheduler
       (seq 0 num_epochs) w None)
    (λ '(w, meters), return_meters w meters).

(** *** The checkpoint parameters

    The loops above are the three definitions of [train_model] as the
    notebook calls them, without a folder for the checkpoints.  What
    follows are the same three definitions with their parameters
    [checkpoint_loc] and [checkpoint_name].

    The notebook imports [torch], [MLP], [AverageMeter], [accuracy] and
    [mnist] and nothing else: the name [os] is not bound, and evaluating it
    raises [NameError]. *)

(** [if checkpoint_loc is not None: os.makedirs(checkpoint_loc,
    exist_ok=True)], the first statement of every [train_model]. *)
Definition make_folder (checkpoint_loc : option string) : result unit :=
  match checkpoint_loc with
  | Some _ => Raised NameError
  | None => Returned tt
  end.

(** [if checkpoint_name is not None and checkpoint_loc is not None:
    checkpoint_dict = {"parameters": model.state_dict(), "optimizer":
    optimizer.state_dict(), "epoch": epoch}; torch.save(checkpoint_dict,
    os.path.join(checkpoint_loc, checkpoint_name))].  The dictionary is
    built; the second argument of [torch.save] is evaluated before the call
    and raises [NameError]. *)
Definition save_checkpoint (checkpoint_loc checkpoint_name : option string)
  : result unit :=
  match checkpoint_name, checkpoint_loc with
  | Some _, Some _ => Raised NameError
  | _, _ => Returned tt
  end.

(** The first [train_model]. *)
Fixpoint train_epochs_full (checkpoint_loc checkpoint_name : option string)
    (loss_fn performance : P → B → R)
    (epochs : list nat) (w : W) (meters : option (M * M))
  : result (W * option (M * M)) :=
  match epochs with
  | [] => Returned (w, meters)
  | _ :: rest =>
      let loss_meter := AverageMeter in
      let performance_meter := AverageMeter in
      result_bind
        (call 8 8 (train_epoch loss_fn performance w
                     loss_meter performance_meter))
        (λ '(w, loss_meter, performance_meter),
           result_bind (save_checkpoint checkpoint_loc checkpoint_name) (λ _,
           train_epochs_full checkpoint_loc checkpoint_name
             loss_fn performance rest w
             (Some (loss_meter, performance_meter))))
  end.

Definition train_model_full (checkpoint_loc checkpoint_name : option string)
    (loss_fn performance : P → B → R) (w : W) (num_epochs : nat)
  : result (W * (R * R)) :=
  result_bind (make_folder checkpoint_loc) (λ _,
  let w := train_mode w in
  result_bind
    (train_epochs_full checkpoint_loc checkpoint_name
       loss_fn performance (seq 0 num_epochs) w None)
    (λ '(w, meters), return_meters w meters)).



(** The third [train_model]: the checkpoint comes before
    [lr_scheduler.step()]. *)
Fixpoint train_epochs_scheduler_full
    (checkpoint_loc checkpoint_name : option string)
    (loss_fn performance : P → B → R)
    (lr_scheduler : bool) (epochs : list nat) (w : W)
    (meters : option (M * M)) : result (W * option (M * M)) :=
  match epochs with
  | [] => Returned (w, meters)
  | _ :: rest =>
      let loss_meter := AverageMeter in
      let performance_meter := AverageMeter in
      result_bind (read_lr w) (λ _,
      result_bind
        (call 8 7 (train_epoch loss_fn performance w
                     loss_meter performance_meter))
        (λ '(w, loss_meter, performance_meter),
           result_bind (save_checkpoint checkpoint_loc checkpoint_name) (λ _,
           let w := if lr_scheduler then scheduler_step w else w in
           train_epochs_scheduler_full checkpoint_loc checkpoint_name
             loss_fn performance lr_scheduler rest w
             (Some (loss_meter, performance_meter)))))
  end.

Definition train_model_scheduler_full
    (checkpoint_loc checkpoint_name : option string)
    (loss_fn performance : P → B → R) (lr_scheduler : bool) (w : W)
    (num_epochs : nat) : result (W * (R * R)) :=
  result_bind (make_folder checkpoint_loc) (λ _,
  let w := train_mode w in
  result_bind
    (train_epochs_scheduler_full checkpoint_loc checkpoint_name
       loss_fn performance lr_scheduler (seq 0 num_epochs) w None)
    (λ '(w, meters), return_meters w meters)).

(** The body of the loop of [test_model] for one mini-batch; [loss_meter]
    exists only when a loss function is passed. *)
Definition test_batch (loss_fn : option (P → B → R)) (performance : P → B → R)
    (w : W) (s : option M * M) (b : B) : option M * M :=
  let '(loss_meter, performance_meter) := s in
  let y_hat := forward w b in
  let acc := performance y_hat b in
  (match loss_fn, loss_meter with
   | Some f, Some m => Some (update m (f y_hat b) (batch_size b))
   | _, _ => loss_meter
   end,
   update performance_meter acc (batch_size b)).

(** [test_model(model, dataloader, performance, loss_fn)]: the result is
    [(fin_loss, fin_perf)], with [fin_loss = None] when no loss function is
    passed. *)
Definition test_model (loss_fn : option (P → B → R))
    (performance : P → B → R) (w : W) : option R * R :=
  let loss_meter := (λ _, AverageMeter) <$> loss_fn in
  let performance_meter := AverageMeter in
  let w := eval_mode w in
  let '(dataloader, w) := batches w in
  let '(loss_meter, performance_meter) :=
    foldl (test_batch loss_fn performance w)
      (loss_meter, performance_meter) dataloader in
  (meter_sum <$> loss_meter, meter_avg performance_meter).

End training.

(** * Part II: what the statements are written with *)

(** ** Shapes and well-formed optimizers *)

(** The shapes [step] relies on at the parameter [p]: the object exists, and
    its gradient and its momentum buffer, where present, have the shape of
    its data. *)
Definition shaped (σ : opt_state * store) (p : ident) : bool :=
  match σ.2 !! p with
  | None => false
  | Some prm =>
      match grad prm with
      | Some g => Tensor.same_shape g (data prm)
      | None => true
      end
      && match σ.1 !! p ≫= (.!! "momentum_buffer") with
         | Some M => Tensor.same_shape M (data prm)
         | None => true
         end
  end.

(** Both hyperparameters [__init__] installs are present in the group. *)
Definition hyper_ok (pg : ParamGroup) : bool :=
  bool_decide (is_Some (hyper pg !! "lr"))
  && bool_decide (is_Some (hyper pg !! "momentum")).

Definition wf (o : Optimizer) (h : store) : bool :=
  forallb hyper_ok (param_groups o) && forallb (shaped (state o, h)) (tracked o).

(** The momentum rule in closed form, entry by entry: the buffer after an
    update, from the buffer before it (if any) and the gradient. *)
Definition momentum_rule (lr momentum : R) (M_prev : option Tensor.t)
    (g : Tensor.t) : Tensor.t :=
  match M_prev with
  | Some M => zip_with (λ m x, momentum * m + lr * x) M g
  | None => (λ x, lr * x) <$> g
  end.

(** The visits of [step]: each parameter with the group it is reached
    through, in order. *)
Definition visits (gs : list ParamGroup) : list (ParamGroup * ident) :=
  pg ← gs; (pg,.) <$> params pg.

Definition visit (σ : opt_state * store) (v : ParamGroup * ident)
  : option (opt_state * store) :=
  SGD_Alternate.update_param v.1 σ v.2.

(** ** Export and import of the optimizer state

    The notebook defines neither an export nor an import of the optimizer
    state: [SGD_Alternate] inherits [state_dict] and [load_state_dict] from
    [torch.optim.Optimizer], and the notebook only mentions
    [optimizer.state_dict()], in the checkpoint no run builds. *)

(** Modelled from the spec: a snapshot, the representation (parameter-id →
    record) of section 4.2.  A parameter-id is "a stable integer
    parameter-id assigned at optimizer construction" (section 9): the
    position of the parameter in the groups, counted through the groups in
    order. *)
Abbreviation snapshot := (gmap nat record).

(** Modelled from the spec: [export_state], the record of every parameter
    that has one, under the parameter-id of the parameter. *)
Definition export_state (o : Optimizer) : snapshot :=
  omap (λ p, state o !! p) (map_seq 0 (tracked o)).

(** Modelled from the spec: a record of a snapshot fits a live parameter
    when the parameter exists and every tensor of the record has its shape
    (section 4.2). *)
Definition fits (h : store) (p : ident) (rec : record) : bool :=
  match h !! p with
  | Some prm =>
      bool_decide
        (map_Forall (λ (_ : string) (t : Tensor.t), length t = length (data prm))
           rec)
  | None => false
  end.

(** Every parameter-id of the snapshot is one of the live optimizer, and
    its record fits the parameter with that id. *)
Definition compatible (o : Optimizer) (h : store) (snap : snapshot) : bool :=
  bool_decide
    (map_Forall
       (λ i rec, from_option (λ p, fits h p rec) false (tracked o !! i) = true)
       snap).

(** The records of a snapshot, under the parameters of the live optimizer
    that have their parameter-ids. *)
Definition unpack (o : Optimizer) (snap : snapshot) : opt_state :=
  list_to_map (omap (λ ip, (ip.2,.) <$> snap !! ip.1) (imap pair (tracked o))).

(** Modelled from the spec: [import_state] replaces the whole state of the
    live optimizer by the records of the snapshot, or applies none of it
    and fails with [StateMismatchError] when the snapshot does not fit the
    live model (sections 4.2 and 7). *)
Definition import_state (o : Optimizer) (h : store) (snap : snapshot)
  : option Optimizer :=
  if compatible o h snap
  then Some {| param_groups := param_groups o; state := unpack o snap |}
  else None.


(** ** Concrete optimizers for the examples *)

Definition w0 : ident := 0%nat.
Definition w1 : ident := 1%nat.

Definition demo_store : store :=
  <[w0 := {| data := [1; 2]; grad := Some [10; 20] |}]>
  (<[w1 := {| data := [5]; grad := None |}]> ∅).

(** [SGD_Alternate([w0, w1], lr=.1, momentum=.9)] *)
Definition demo_opt : Optimizer :=
  {| param_groups :=
       [ {| params := [w0; w1];
            hyper := <["lr" := 1/10]> (<["momentum" := 9/10]> ∅) |} ];
     state := ∅ |}.

(** [SGD_Alternate([w0], lr=.1, momentum=.9)] *)
Definition demo_opt_w0 : Optimizer :=
  {| param_groups :=
       [ {| params := [w0];
            hyper := <["lr" := 1/10]> (<["momentum" := 9/10]> ∅) |} ];
     state := ∅ |}.

(** The optimizer of the demonstration after a first update of [w0]: its
    record holds a momentum buffer. *)
Definition demo_opt1 : Optimizer :=
  {| param_groups := param_groups demo_opt;
     state := {[ w0 := {[ "momentum_buffer" := [1; 2] ]} ]} |}.

Definition demo_group : ParamGroup :=
  {| params := [w0; w1];
     hyper := <["lr" := 1/10]> (<["momentum" := 9/10]> ∅) |}.


(** The optimizer [demo_opt1] with the momentum of its group set to 0. *)
Definition demo_opt_plain : Optimizer :=
  {| param_groups :=
       [ {| params := [w0; w1];
            hyper := <["lr" := 1/10]> (<["momentum" := 0]> ∅) |} ];
     state := state demo_opt1 |}.

(** ** Fresh optimizers and repeated steps *)

(** The learning rate is present in the group. *)
Definition lr_ok (pg : ParamGroup) : bool :=
  bool_decide (is_Some (hyper pg !! "lr")).

(** No tracked parameter has a momentum buffer yet, every group has a
    learning rate, and the shapes [step] relies on are in place.  The
    momentum is not asked for. *)
Definition fresh (o : Optimizer) (h : store) : bool :=
  forallb lr_ok (param_groups o)
  && forallb (λ p, shaped (state o, h) p
                   && bool_decide (momentum_buffer o p = None)) (tracked o).

(** [1 + momentum + ... + momentum ^ (n - 1)], by the recurrence of the
    momentum buffer. *)
Fixpoint geometric (momentum : R) (n : nat) : R :=
  match n with
  | O => 0
  | S n' => momentum * geometric momentum n' + 1
  end.

(** [geometric momentum 1 + ... + geometric momentum n]. *)
Fixpoint travelled (momentum : R) (n : nat) : R :=
  match n with
  | O => 0
  | S n' => travelled momentum n' + geometric momentum (S n')
  end.

(** ** One visit, seen from the parameter *)

(** What a visit of [step] does with the record and the object of the
    visited parameter, as a function of these two and of the group. *)
Definition local_update (pg : ParamGroup) (orec : option record) (prm : Param)
  : option (option record * Param) :=
  match grad prm with
  | None => Some (orec, prm)
  | Some g =>
      let rec := default ∅ orec in
      M ← match rec !! "momentum_buffer" with
          | Some M =>
              momentum ← hyper pg !! "momentum";
              lr ← hyper pg !! "lr";
              Tensor.add_ (Tensor.mul M momentum) (Tensor.mul g lr)
          | None =>
              lr ← hyper pg !! "lr";
              Some (Tensor.mul g lr)
          end;
      d ← Tensor.sub_ (data prm) M;
      Some (Some (<["momentum_buffer" := M]> rec),
            {| data := d; grad := Some g |})
  end.

(** ** Epochs of the first [train_model], one after the other *)

(** The world after [n] epochs, each with meters of its own. *)
Fixpoint after_epochs {W B P M : Type} `{!Collaborators W B P M}
    (loss_fn performance : P → B → R) (n : nat) (w : W) : result W :=
  match n with
  | O => Returned w
  | S n' =>
      result_bind (after_epochs loss_fn performance n' w) (λ w,
      result_bind (train_epoch loss_fn performance w AverageMeter AverageMeter)
        (λ '(w, _, _), Returned w))
  end.

(** ** Collaborators for the examples

    The world is an optimizer with its store; a mini-batch is the gradient
    it gives the parameter [w0]; a meter is a running sum with a count. *)
Definition demo_collaborators (dataloader : list Tensor.t)
  : Collaborators (Optimizer * store) Tensor.t unit (R * nat) :=
  {| batches := λ w, (dataloader, w);
     zero_grad := λ '(o, h), (o, (λ prm, {| data := data prm; grad := None |}) <$> h);
     forward := λ _ _, tt;
     backward := λ '(o, h) b,
       (o, alter (λ prm, {| data := data prm; grad := Some b |}) w0 h);
     optimizer_step := λ '(o, h), SGD_Alternate.step o h;
     train_mode := λ w, w;
     eval_mode := λ w, w;
     batch_size := λ b, length b;
     groups := λ '(o, _), param_groups o;
     with_groups := λ gs '(o, h),
       ({| param_groups := gs; state := state o |}, h);
     scheduler_step := λ w, w;
     AverageMeter := (0, 0%nat);
     update := λ '(total, count) val n, (total + val * INR n, (count + n)%nat);
     meter_sum := fst;
     meter_avg := λ '(total, count), total / INR count |}.

(** * Part III: examples *)

(** The constructor gives one group with the two hyperparameters and no
    state; without parameters it raises. *)
Example demo_init :
  SGD_Alternate.init [w0; w1] (1/10) (9/10) = Some demo_opt
  ∧ SGD_Alternate.init [w0] (1/10) (9/10) = Some demo_opt_w0
  ∧ SGD_Alternate.init [] (1/10) (9/10) = None.
Proof. repeat split; reflexivity. Qed.

Example demo_first_step :
  ∃ o' h', SGD_Alternate.step demo_opt demo_store = Some (o', h')
    ∧ momentum_buffer o' w0 = Some [10 * (1/10); 20 * (1/10)]
    ∧ data <$> h' !! w0 = Some [1 - 10 * (1/10); 2 - 20 * (1/10)]
    ∧ h' !! w1 = demo_store !! w1
    ∧ state o' !! w1 = None.
Proof. eexists _, _. repeat split; reflexivity. Qed.

(** Two updates in a row: the second blends the buffer of the first. *)
Example demo_second_step :
  ∃ o' h', run [Step; Step] (demo_opt, demo_store) = Some (o', h')
    ∧ momentum_buffer o' w0 = Some [19/10; 38/10]
    ∧ data <$> h' !! w0 = Some [-19/10; -38/10].
Proof.
  eexists _, _. split; [reflexivity|].
  split; vm_compute; repeat f_equal; lra.
Qed.

(** A group without ["lr"] makes [step] raise [KeyError]; a gradient with
    three entries for a parameter with two makes it raise [RuntimeError];
    a gradient with one entry is used at both positions. *)
Example demo_missing_lr :
  SGD_Alternate.step
    {| param_groups := [ {| params := [w0]; hyper := {[ "momentum" := 9/10 ]} |} ];
       state := ∅ |} demo_store
  = None.
Proof. reflexivity. Qed.

Example demo_shape_mismatch :
  SGD_Alternate.step demo_opt_w0
    {[ w0 := {| data := [1; 2]; grad := Some [10; 20; 30] |} ]}
  = None.
Proof. reflexivity. Qed.

Example demo_broadcast :
  ∃ o' h',
    SGD_Alternate.step demo_opt_w0
      {[ w0 := {| data := [1; 2]; grad := Some [10] |} ]} = Some (o', h')
    ∧ momentum_buffer o' w0 = Some [10 * (1/10)]
    ∧ data <$> h' !! w0 = Some [1 - 10 * (1/10); 2 - 10 * (1/10)].
Proof. eexists _, _. repeat split; reflexivity. Qed.

Example demo_write_momentum :
  (set_hyper demo_opt 0 "momentum" (8/10)) ≫= (λ o, param_groups o !! 0%nat)
  = Some {| params := [w0; w1];
            hyper := <["momentum" := 8/10]> (hyper demo_group) |}.
Proof. reflexivity. Qed.

Example demo_write_out_of_range : set_hyper demo_opt 1 "momentum" (8/10) = None.
Proof. reflexivity. Qed.

(** A snapshot is keyed by the positions of the parameters in the groups:
    in an optimizer over [w1], [w0] the record of [w0] is exported under
    1, and imported it is the record of [w0] again. *)
Example demo_export :
  export_state
    {| param_groups := [ {| params := [w1; w0]; hyper := ∅ |} ];
       state := state demo_opt1 |}
  = {[ 1%nat := {[ "momentum_buffer" := [1; 2] ]} ]}
  ∧ import_state
      {| param_groups := [ {| params := [w1; w0]; hyper := ∅ |} ];
         state := ∅ |} demo_store
      {[ 1%nat := {[ "momentum_buffer" := [1; 2] ]} ]}
    = Some {| param_groups := [ {| params := [w1; w0]; hyper := ∅ |} ];
              state := state demo_opt1 |}.
Proof. split; reflexivity. Qed.

(** An import fails on a record that does not fit the shape of the live
    parameter, and on a parameter-id the live optimizer does not have. *)
Example demo_import_mismatch :
  import_state demo_opt demo_store
    {[ 1%nat := {[ "momentum_buffer" := [1; 2] ]} ]} = None
  ∧ import_state demo_opt demo_store
      {[ 2%nat := {[ "momentum_buffer" := [1; 2] ]} ]} = None.
Proof. split; reflexivity. Qed.

(** A parameter listed twice in a group is visited twice by [step]: the
    second visit updates the buffer again and subtracts it again.  PyTorch
    warns about such a group; the statements on single parameters below
    are about optimizers that list every parameter once. *)
Example step_parameter_listed_twice :
  ∃ o o' h',
    SGD_Alternate.init [w0; w0] 1 0 = Some o
    ∧ SGD_Alternate.step o {[ w0 := {| data := [5]; grad := Some [1] |} ]}
      = Some (o', h')
    ∧ momentum_buffer o' w0 = Some [1]
    ∧ data <$> h' !! w0 = Some [3].
Proof.
  eexists _, _, _. split; [reflexivity|]. split; [reflexivity|].
  split; vm_compute; do 2 f_equal; lra.
Qed.

(** One epoch of the first [train_model] over two mini-batches, with
    [SGD_Alternate] as the optimizer: the second update blends the buffer of
    the first, and the meters have seen both batches. *)
Example train_one_epoch :
  ∃ o' h',
    train_model (Collaborators0 := demo_collaborators [[10; 20]; [10; 20]])
      (λ _ b, 1) (λ _ b, 1/2) (demo_opt, demo_store) 1
    = Returned ((o', h'), (0 + 1 * INR 2 + 1 * INR 2,
                           (0 + 1/2 * INR 2 + 1/2 * INR 2) / INR 4))
    ∧ momentum_buffer o' w0 = Some [19/10; 38/10]
    ∧ data <$> h' !! w0 = Some [-19/10; -38/10].
Proof.
  eexists _, _. split; [reflexivity|].
  split; vm_compute; repeat f_equal; lra.
Qed.

(** A mini-batch whose gradient has three entries for a parameter with two
    makes [optimizer.step()] raise inside [train_epoch], and [train_model]
    with it; a training without epochs raises at the [return]. *)
Example train_raises :
  train_model (Collaborators0 := demo_collaborators [[10; 20]; [10; 20; 30]])
    (λ _ b, 1) (λ _ b, 1/2) (demo_opt, demo_store) 3
  = Raised StepRaised
  ∧ train_model (Collaborators0 := demo_collaborators [[10; 20]])
      (λ _ b, 1) (λ _ b, 1/2) (demo_opt, demo_store) 0
    = Raised UnboundLocalError.
Proof. split; reflexivity. Qed.

(** With a folder for the checkpoints [train_model] raises before the first
    epoch; the later definitions raise in the first epoch without one. *)
Example train_with_checkpoints :
  train_model_full (Collaborators0 := demo_collaborators [[10; 20]])
    (Some "ckpt") (Some "checkpoint.pt")
    (λ _ b, 1) (λ _ b, 1/2) (demo_opt, demo_store) 3
  = Raised NameError
  ∧ train_model_scheduler_full (Collaborators0 := demo_collaborators [[10; 20]])
      None (Some "checkpoint.pt")
      (λ _ b, 1) (λ _ b, 1/2) false (demo_opt, demo_store) 3
    = Raised TypeError.
Proof. split; reflexivity. Qed.

(** [test_model] with and without a loss function. *)
Example test_with_and_without_loss :
  test_model (Collaborators0 := demo_collaborators [[10; 20]; [10]])
    (Some (λ _ b, 1)) (λ _ b, 1/2) (demo_opt, demo_store)
  = (Some (0 + 1 * INR 2 + 1 * INR 1),
     (0 + 1/2 * INR 2 + 1/2 * INR 1) / INR 3)
  ∧ test_model (Collaborators0 := demo_collaborators [[10; 20]; [10]])
      None (λ _ b, 1/2) (demo_opt, demo_store)
    = (None, (0 + 1/2 * INR 2 + 1/2 * INR 1) / INR 3).
Proof. split; reflexivity. Qed.

(** * Part IV: lemmas and theorems *)

(** ** Loops *)

Section for_each.
Context {A S : Type} (body : S → A → option S).

Lemma for_each_app l1 l2 s :
  for_each body (l1 ++ l2) s = for_each body l1 s ≫= for_each body l2.
Proof.
  revert s; induction l1 as [|x l1 IH]; intros s; simpl; [done|].
  destruct (body s x) as [s1|]; simpl; [apply IH | done].
Qed.

(** A property kept by every iteration that returns is kept by the loop. *)
Lemma for_each_invariant (P : S → Prop) l s s' :
  (∀ s0 x s1, x ∈ l → P s0 → body s0 x = Some s1 → P s1) →
  P s → for_each body l s = Some s' → P s'.
Proof.
  revert s; induction l as [|x l IH]; intros s Hstep Hs Hrun; simpl in *.
  - by simplify_eq.
  - destruct (body s x) as [s1|] eqn:Hb; simplify_eq/=.
    apply (IH s1); [|by eapply Hstep; [left|..]|done].
    intros s0 y s2 Hy. apply Hstep. by right.
Qed.

(** If every iteration returns from a state satisfying [I] and keeps [I],
    the loop returns. *)
Lemma for_each_total (I : S → Prop) l s :
  (∀ s0 x, x ∈ l → I s0 → ∃ s1, body s0 x = Some s1 ∧ I s1) →
  I s → ∃ s', for_each body l s = Some s' ∧ I s'.
Proof.
  revert s; induction l as [|x l IH]; intros s Hstep Hs; simpl.
  - by exists s.
  - destruct (Hstep s x) as (s1 & -> & Hs1); [by left|done|]. simpl.
    apply IH; [|done]. intros s0 y Hy. apply Hstep. by right.
Qed.
End for_each.

Lemma for_each_fmap {A B S : Type} (f : A → B) (body : S → B → option S) l s :
  for_each body (f <$> l) s = for_each (λ s0 x, body s0 (f x)) l s.
Proof.
  revert s; induction l as [|x l IH]; intros s; simpl; [done|].
  destruct (body s (f x)); simpl; [apply IH | done].
Qed.

(** ** The visits of [step] *)

Lemma step_groups_visits gs σ :
  for_each SGD_Alternate.step_group gs σ = for_each visit (visits gs) σ.
Proof.
  revert σ; induction gs as [|pg gs IH]; intros σ; [done|].
  change (visits (pg :: gs)) with (((pg,.) <$> params pg) ++ visits gs).
  rewrite for_each_app, for_each_fmap.
  change (for_each SGD_Alternate.step_group (pg :: gs) σ)
    with (for_each (SGD_Alternate.update_param pg) (params pg) σ
            ≫= for_each SGD_Alternate.step_group gs).
  change (λ s0 x, visit s0 (pg, x)) with (SGD_Alternate.update_param pg).
  destruct (for_each _ (params pg) σ) as [σ1|]; simpl; [apply IH | done].
Qed.

Lemma visits_snd gs : (visits gs).*2 = concat (params <$> gs).
Proof.
  induction gs as [|pg gs IH]; [done|].
  change (visits (pg :: gs)) with (((pg,.) <$> params pg) ++ visits gs).
  rewrite fmap_app, IH. simpl. f_equal.
  rewrite <- list_fmap_compose. apply list_fmap_id.
Qed.

Lemma elem_of_visits gs pg p :
  (pg, p) ∈ visits gs ↔ pg ∈ gs ∧ p ∈ params pg.
Proof.
  unfold visits. rewrite list_elem_of_bind. split.
  - intros (pg' & Hin & Hpg). apply list_elem_of_fmap in Hin as (q & [= -> ->] & Hq).
    done.
  - intros [Hpg Hp]. exists pg. split; [|done]. apply list_elem_of_fmap. eauto.
Qed.

(** ** Tensor operations *)

Lemma same_shape_true a b : Tensor.same_shape a b = true ↔ length a = length b.
Proof. unfold Tensor.same_shape. by rewrite bool_decide_eq_true. Qed.

(** An operand of the shape of the updated tensor is taken as it is. *)
Lemma broadcast_to_same a b :
  length a = length b → Tensor.broadcast_to a b = Some b.
Proof.
  intros E. unfold Tensor.broadcast_to.
  by rewrite (proj2 (same_shape_true a b) E).
Qed.


(** The operand as it is used has the shape of the updated tensor. *)
Lemma length_broadcast_to a b b' :
  Tensor.broadcast_to a b = Some b' → length b' = length a.
Proof.
  unfold Tensor.broadcast_to. destruct (Tensor.same_shape a b) eqn:Es.
  - apply same_shape_true in Es. by intros [= <-].
  - destruct b as [|x [|y b]]; intros [= <-]. apply length_replicate.
Qed.

Lemma add__Some a b :
  length a = length b → Tensor.add_ a b = Some (zip_with Rplus a b).
Proof. intros E. unfold Tensor.add_. by rewrite broadcast_to_same. Qed.

Lemma sub__Some a b :
  length a = length b → Tensor.sub_ a b = Some (zip_with Rminus a b).
Proof. intros E. unfold Tensor.sub_. by rewrite broadcast_to_same. Qed.

(** The in-place operations keep the shape of the tensor they update. *)
Lemma length_add_ a b c : Tensor.add_ a b = Some c → length c = length a.
Proof.
  unfold Tensor.add_. destruct (Tensor.broadcast_to a b) as [b'|] eqn:E;
    [|done].
  apply length_broadcast_to in E. intros [= <-].
  rewrite length_zip_with. lia.
Qed.

Lemma length_sub_ a b c : Tensor.sub_ a b = Some c → length c = length a.
Proof.
  unfold Tensor.sub_. destruct (Tensor.broadcast_to a b) as [b'|] eqn:E;
    [|done].
  apply length_broadcast_to in E. intros [= <-].
  rewrite length_zip_with. lia.
Qed.



Lemma length_mul a c : length (Tensor.mul a c) = length a.
Proof. apply length_fmap. Qed.

Lemma mul_comm_fmap a c : Tensor.mul a c = (λ x, c * x) <$> a.
Proof. apply list_fmap_ext. intros _ x _. apply Rmult_comm. Qed.

Lemma add_mul_mul M g momentum lr :
  zip_with Rplus (Tensor.mul M momentum) (Tensor.mul g lr)
  = zip_with (λ m x, momentum * m + lr * x) M g.
Proof.
  unfold Tensor.mul. rewrite zip_with_fmap_l, zip_with_fmap_r.
  apply zip_with_ext; [|done..]. intros m x. lra.
Qed.

(** ** One visit of [step] *)

Lemma buffer_default (st : opt_state) p :
  default ∅ (st !! p) !! "momentum_buffer"
  = st !! p ≫= (.!! "momentum_buffer").
Proof. by destruct (st !! p). Qed.

(** A visit of a parameter without gradient changes nothing. *)
Lemma update_param_no_grad pg σ p prm :
  σ.2 !! p = Some prm → grad prm = None →
  SGD_Alternate.update_param pg σ p = Some σ.
Proof.
  destruct σ as [st h]; simpl. intros Hp Hg.
  unfold SGD_Alternate.update_param. rewrite Hp; simpl. by rewrite Hg.
Qed.

(** A visit of a parameter with a gradient of its shape: the new buffer is
    given by the momentum rule with the hyperparameters of the group, it is
    stored in the record of the parameter, and it is subtracted from the
    data.  The gradient is left in place. *)
Lemma update_param_grad pg st h p prm g lr momentum :
  h !! p = Some prm → grad prm = Some g →
  length g = length (data prm) →
  (∀ M0, st !! p ≫= (.!! "momentum_buffer") = Some M0 →
         length M0 = length (data prm)) →
  hyper pg !! "lr" = Some lr → hyper pg !! "momentum" = Some momentum →
  let M := momentum_rule lr momentum (st !! p ≫= (.!! "momentum_buffer")) g in
  SGD_Alternate.update_param pg (st, h) p
  = Some (<[p := <["momentum_buffer" := M]> (default ∅ (st !! p))]> st,
          <[p := {| data := zip_with Rminus (data prm) M; grad := Some g |}]> h)
  ∧ length M = length (data prm).
Proof.
  intros Hp Hg Hlen HM Hlr Hmom. unfold SGD_Alternate.update_param.
  rewrite Hp; simpl. rewrite Hg, buffer_default.
  destruct (st !! p ≫= (.!! "momentum_buffer")) as [M0|]; simpl.
  - specialize (HM M0 eq_refl). rewrite Hmom, Hlr; simpl.
    rewrite add__Some by (rewrite !length_mul; lia). simpl.
    rewrite add_mul_mul.
    assert (Hl : length (zip_with (λ m x, momentum * m + lr * x) M0 g)
                 = length (data prm)) by (rewrite length_zip_with; lia).
    by rewrite sub__Some.
  - rewrite Hlr; simpl. rewrite mul_comm_fmap.
    assert (Hl : length ((λ x, lr * x) <$> g) = length (data prm))
      by (by rewrite length_fmap).
    by rewrite sub__Some.
Qed.

(** A visit touches the visited parameter only. *)
Lemma update_param_other pg σ q σ' p :
  SGD_Alternate.update_param pg σ q = Some σ' → p ≠ q →
  σ'.1 !! p = σ.1 !! p ∧ σ'.2 !! p = σ.2 !! p.
Proof.
  destruct σ as [st h]. unfold SGD_Alternate.update_param.
  destruct (h !! q) as [prm|]; simpl; [|done].
  destruct (grad prm) as [g|]; [|by intros [= <-]].
  destruct (match _ with Some _ => _ | None => _ end) as [M|]; simpl; [|done].
  destruct (Tensor.sub_ _ _) as [d|]; simpl; [|done].
  intros [= <-] Hne. simpl. by rewrite !lookup_insert_ne.
Qed.

Lemma shaped_spec σ p :
  shaped σ p = true ↔
  ∃ prm, σ.2 !! p = Some prm
    ∧ (∀ g, grad prm = Some g → length g = length (data prm))
    ∧ (∀ M, σ.1 !! p ≫= (.!! "momentum_buffer") = Some M →
            length M = length (data prm)).
Proof.
  unfold shaped. destruct (σ.2 !! p) as [prm|];
    [|split; [done | by intros (? & ? & _)]].
  rewrite andb_true_iff. split.
  - intros [Hg HM]. exists prm. split; [done|]. split.
    + intros g Eg. rewrite Eg in Hg. by apply same_shape_true.
    + intros M EM. rewrite EM in HM. by apply same_shape_true.
  - intros (prm' & [= <-] & Hg & HM). split.
    + destruct (grad prm) as [g|]; [|done]. apply same_shape_true. auto.
    + destruct (_ ≫= _) as [M|]; [|done]. apply same_shape_true. auto.
Qed.

Lemma hyper_ok_spec pg :
  hyper_ok pg = true ↔
  ∃ lr momentum,
    hyper pg !! "lr" = Some lr ∧ hyper pg !! "momentum" = Some momentum.
Proof.
  unfold hyper_ok. rewrite andb_true_iff, !bool_decide_eq_true. split.
  - intros [[lr Hlr] [momentum Hmom]]. eauto.
  - intros (lr & momentum & Hlr & Hmom). split; eauto.
Qed.

(** On well-shaped operands a visit returns. *)
Lemma update_param_total pg σ p :
  hyper_ok pg = true → shaped σ p = true →
  is_Some (SGD_Alternate.update_param pg σ p).
Proof.
  destruct σ as [st h].
  intros (lr & momentum & Hlr & Hmom)%hyper_ok_spec
         (prm & Hp & Hg & HM)%shaped_spec. simpl in *.
  unfold SGD_Alternate.update_param. rewrite Hp; simpl.
  destruct (grad prm) as [g|]; [|done]. specialize (Hg g eq_refl).
  rewrite buffer_default.
  destruct (st !! p ≫= (.!! "momentum_buffer")) as [M0|]; simpl.
  - specialize (HM M0 eq_refl). rewrite Hmom, Hlr; simpl.
    rewrite add__Some by (rewrite !length_mul; lia). simpl.
    rewrite sub__Some; [done|].
    rewrite length_zip_with, !length_mul. lia.
  - rewrite Hlr; simpl.
    rewrite sub__Some; [done|]. rewrite length_mul. lia.
Qed.

(** A visit that returns keeps every parameter well shaped. *)
Lemma update_param_shaped pg σ q σ' p :
  SGD_Alternate.update_param pg σ q = Some σ' →
  shaped σ p = true → shaped σ' p = true.
Proof.
  intros Hrun Hsh. destruct (decide (p = q)) as [->|Hne].
  - apply shaped_spec in Hsh as (prm & Hp & Hg & HM).
    destruct σ as [st h]; simpl in *.
    unfold SGD_Alternate.update_param in Hrun. rewrite Hp in Hrun; simpl in Hrun.
    destruct (grad prm) as [g|] eqn:Eg.
    + specialize (Hg g eq_refl).
      destruct (match _ with Some _ => _ | None => _ end) as [M|] eqn:EM;
        simpl in Hrun; [|done].
      assert (HlenM : length M = length (data prm)).
      { rewrite buffer_default in EM.
        destruct (st !! q ≫= (.!! "momentum_buffer")) as [M0|].
        - specialize (HM M0 eq_refl).
          destruct (hyper pg !! "momentum") as [momentum|]; [|done].
          destruct (hyper pg !! "lr") as [lr|]; [|done]. simpl in EM.
          apply length_add_ in EM. rewrite length_mul in EM. lia.
        - destruct (hyper pg !! "lr") as [lr|]; [|done]. simpl in EM.
          injection EM as <-. by rewrite length_mul. }
      destruct (Tensor.sub_ _ _) as [d|] eqn:Hd; simpl in Hrun; [|done].
      pose proof (length_sub_ _ _ _ Hd) as Hlen. injection Hrun as <-.
      apply shaped_spec. eexists. simpl. rewrite !lookup_insert_eq.
      split; [done|]. simpl. split.
      * intros g' [= <-]. lia.
      * rewrite lookup_insert_eq. intros M' [= <-]. lia.
    + injection Hrun as <-. apply shaped_spec. exists prm. simpl.
      rewrite Eg. auto.
  - destruct (update_param_other _ _ _ _ p Hrun Hne) as [E1 E2].
    unfold shaped in *. by rewrite E1, E2.
Qed.

(** A visit changes neither a gradient nor the shape of a parameter, and
    neither creates nor removes an object. *)
Lemma update_param_keeps pg σ q σ' (p : ident) :
  SGD_Alternate.update_param pg σ q = Some σ' →
  grad <$> σ'.2 !! p = grad <$> σ.2 !! p
  ∧ (λ prm, length (data prm)) <$> σ'.2 !! p
    = (λ prm, length (data prm)) <$> σ.2 !! p.
Proof.
  intros Hrun. destruct (decide (p = q)) as [->|Hne].
  - destruct σ as [st h]. unfold SGD_Alternate.update_param in Hrun.
    simpl. destruct (h !! q) as [prm|] eqn:Hq; simpl in Hrun; [|done].
    destruct (grad prm) as [g|] eqn:Eg.
    + destruct (match _ with Some _ => _ | None => _ end) as [M|];
        simpl in Hrun; [|done].
      destruct (Tensor.sub_ _ _) as [d|] eqn:Hd; simpl in Hrun; [|done].
      apply length_sub_ in Hd. injection Hrun as <-. simpl.
      rewrite lookup_insert_eq. simpl. rewrite Eg.
      split; [done|]. by f_equal.
    + injection Hrun as <-. simpl. by rewrite Hq.
  - destruct (update_param_other _ _ _ _ p Hrun Hne) as [_ ->]. done.
Qed.

(** ** The whole of [step] *)

Lemma step_unfold o h :
  SGD_Alternate.step o h
  = for_each visit (visits (param_groups o)) (state o, h)
    ≫= λ σ, Some ({| param_groups := param_groups o; state := σ.1 |}, σ.2).
Proof. unfold SGD_Alternate.step. by rewrite step_groups_visits. Qed.

Lemma wf_spec o h :
  wf o h = true ↔
  (∀ pg, pg ∈ param_groups o → hyper_ok pg = true)
  ∧ (∀ p, p ∈ tracked o → shaped (state o, h) p = true).
Proof.
  unfold wf. rewrite andb_true_iff, !forallb_forall.
  split; intros [H1 H2]; split; intros x Hx.
  - apply H1. by apply list_elem_of_In.
  - apply H2. by apply list_elem_of_In.
  - apply H1. by apply list_elem_of_In.
  - apply H2. by apply list_elem_of_In.
Qed.

Lemma elem_of_tracked o p :
  p ∈ tracked o ↔ ∃ pg, pg ∈ param_groups o ∧ p ∈ params pg.
Proof.
  unfold tracked. rewrite <- visits_snd, list_elem_of_fmap. split.
  - intros ([pg q] & -> & [Hpg Hq]%elem_of_visits). eauto.
  - intros (pg & Hpg & Hp). exists (pg, p). by rewrite elem_of_visits.
Qed.

(** On a well-formed optimizer the visits all return, and they keep the
    shapes. *)
Lemma visits_total gs (ps : list ident) σ :
  (∀ pg, pg ∈ gs → hyper_ok pg = true) →
  (∀ pg p, pg ∈ gs → p ∈ params pg → p ∈ ps) →
  (∀ p, p ∈ ps → shaped σ p = true) →
  ∃ σ', for_each visit (visits gs) σ = Some σ'
        ∧ ∀ p, p ∈ ps → shaped σ' p = true.
Proof.
  intros Hhyp Hsub Hsh.
  apply (for_each_total visit (λ σ0, ∀ p, p ∈ ps → shaped σ0 p = true));
    [|done].
  intros σ0 [pg p] [Hpg Hp]%elem_of_visits Hσ0. unfold visit; simpl.
  destruct (update_param_total pg σ0 p) as [σ1 Hσ1]; [by auto|by eauto|].
  exists σ1. split; [done|]. intros q Hq.
  eapply update_param_shaped; [done|]. auto.
Qed.

Lemma step_total o h :
  wf o h = true →
  ∃ o' h', SGD_Alternate.step o h = Some (o', h')
    ∧ param_groups o' = param_groups o ∧ wf o' h' = true.
Proof.
  intros [Hhyp Hsh]%wf_spec.
  destruct (visits_total (param_groups o) (tracked o) (state o, h))
    as (σ' & Hrun & Hsh'); [done| |done|].
  { intros pg p Hpg Hp. apply elem_of_tracked. eauto. }
  exists {| param_groups := param_groups o; state := σ'.1 |}, σ'.2.
  rewrite step_unfold, Hrun. simpl. split; [done|]. split; [done|].
  apply wf_spec. split; [done|]. simpl. intros p Hp.
  specialize (Hsh' p Hp). by destruct σ'.
Qed.

(** Visits of other parameters leave the parameter [p] as it is. *)
Lemma visits_other vs σ σ' p :
  p ∉ vs.*2 → for_each visit vs σ = Some σ' →
  σ'.1 !! p = σ.1 !! p ∧ σ'.2 !! p = σ.2 !! p.
Proof.
  intros Hp.
  apply (for_each_invariant visit
           (λ σ0, σ0.1 !! p = σ.1 !! p ∧ σ0.2 !! p = σ.2 !! p)); [|done].
  intros σ0 [pg q] σ1 Hq [E1 E2] Hrun. unfold visit in Hrun; simpl in Hrun.
  destruct (update_param_other _ _ _ _ p Hrun) as [E1' E2'].
  - intros ->. apply Hp. apply list_elem_of_fmap. by exists (pg, q).
  - by rewrite E1', E2'.
Qed.

(** When no parameter is visited twice, what [step] does to [p] is what the
    one visit of [p] does, started from the state of [p] before [step]. *)
Lemma visits_at vs σ σ' pg p :
  NoDup vs.*2 → (pg, p) ∈ vs → for_each visit vs σ = Some σ' →
  ∃ σ1 σ2,
    σ1.1 !! p = σ.1 !! p ∧ σ1.2 !! p = σ.2 !! p
    ∧ SGD_Alternate.update_param pg σ1 p = Some σ2
    ∧ σ'.1 !! p = σ2.1 !! p ∧ σ'.2 !! p = σ2.2 !! p.
Proof.
  intros Hnd (l1 & l2 & ->)%list_elem_of_split Hrun.
  rewrite fmap_app, fmap_cons in Hnd. simpl in Hnd.
  apply NoDup_app in Hnd as (_ & Hl1 & [Hl2 _]%NoDup_cons).
  rewrite for_each_app in Hrun.
  destruct (for_each visit l1 σ) as [σ1|] eqn:H1; simpl in Hrun; [|done].
  change (visit σ1 (pg, p)) with (SGD_Alternate.update_param pg σ1 p) in Hrun.
  destruct (SGD_Alternate.update_param pg σ1 p) as [σ2|] eqn:H2;
    simpl in Hrun; [|done].
  exists σ1, σ2.
  destruct (visits_other l1 σ σ1 p) as [E1 E2]; [|done|].
  { intros Hin. apply (Hl1 p Hin). by left. }
  destruct (visits_other l2 σ2 σ' p) as [E3 E4]; [done..|].
  done.
Qed.

(** What [step] does to a tracked parameter that has a gradient. *)
Lemma step_param o h pg p prm g lr momentum :
  wf o h = true → NoDup (tracked o) →
  pg ∈ param_groups o → p ∈ params pg →
  h !! p = Some prm → grad prm = Some g →
  hyper pg !! "lr" = Some lr → hyper pg !! "momentum" = Some momentum →
  let M := momentum_rule lr momentum (momentum_buffer o p) g in
  ∃ o' h',
    SGD_Alternate.step o h = Some (o', h')
    ∧ param_groups o' = param_groups o
    ∧ state o' !! p = Some (<["momentum_buffer" := M]> (default ∅ (state o !! p)))
    ∧ h' !! p = Some {| data := zip_with Rminus (data prm) M; grad := Some g |}.
Proof.
  intros Hwf Hnd Hpg Hp Hprm Hg Hlr Hmom M.
  destruct (step_total o h Hwf) as (o' & h' & Hstep & Hgs & _).
  exists o', h'. split; [done|]. split; [done|].
  rewrite step_unfold in Hstep.
  destruct (for_each visit _ _) as [σ'|] eqn:Hrun; simplify_eq/=.
  destruct (visits_at _ _ _ pg p (eq_ind_r NoDup Hnd (visits_snd _))
              (proj2 (elem_of_visits _ _ _) (conj Hpg Hp)) Hrun)
    as ([st1 h1] & σ2 & E1 & E2 & Hvisit & E3 & E4). simpl in E1, E2.
  apply wf_spec in Hwf as [_ Hsh].
  destruct (proj1 (shaped_spec _ _)
              (Hsh p (proj2 (elem_of_tracked o p) (ex_intro _ pg (conj Hpg Hp)))))
    as (prm' & Hprm' & Hlen & HlenM). simpl in Hprm', HlenM.
  rewrite Hprm in Hprm'. injection Hprm' as <-.
  rewrite <- E2 in Hprm.
  destruct (update_param_grad pg st1 h1 p prm g lr momentum Hprm Hg
              (Hlen g Hg)) as [Hvisit' _]; [by rewrite E1|done..|].
  rewrite Hvisit' in Hvisit. injection Hvisit as <-.
  simpl in *. rewrite lookup_insert_eq in E3. rewrite lookup_insert_eq in E4.
  rewrite E3, E4. unfold M, momentum_buffer. by rewrite E1.
Qed.

Lemma momentum_rule_zero lr M_prev (g : Tensor.t) :
  (∀ M, M_prev = Some M → length M = length g) →
  momentum_rule lr 0 M_prev g = (λ x, lr * x) <$> g.
Proof.
  destruct M_prev as [M|]; simpl; [|done]. intros HM.
  specialize (HM M eq_refl). revert M HM.
  induction g as [|x g IH]; intros [|m M] HM; simplify_eq/=; [done|].
  f_equal; [lra | by apply IH].
Qed.

Lemma demo_tracked_NoDup : NoDup (tracked demo_opt1).
Proof. by apply (bool_decide_unpack _). Qed.

(** ** The update rule of [SGD_Alternate.step] *)

(** C1.  For a tracked parameter with a gradient, [step] computes the buffer
    [M = momentum * M_prev + lr * grad] when the parameter already has a
    momentum buffer [M_prev], and [M = lr * grad] on its first use; the new
    value of the parameter is [param - M], and [M] is stored as the
    [momentum_buffer] of its state record. *)
Theorem step_momentum_rule o h pg p prm g lr momentum :
  wf o h = true → NoDup (tracked o) →
  pg ∈ param_groups o → p ∈ params pg →
  h !! p = Some prm → grad prm = Some g →
  hyper pg !! "lr" = Some lr → hyper pg !! "momentum" = Some momentum →
  ∃ o' h' M,
    SGD_Alternate.step o h = Some (o', h')
    ∧ M = match momentum_buffer o p with
          | Some M_prev => zip_with (λ m x, momentum * m + lr * x) M_prev g
          | None => (λ x, lr * x) <$> g
          end
    ∧ data <$> h' !! p = Some (zip_with Rminus (data prm) M)
    ∧ momentum_buffer o' p = Some M.
Proof.
  intros Hwf Hnd Hpg Hp Hprm Hg Hlr Hmom.
  destruct (step_param o h pg p prm g lr momentum)
    as (o' & h' & Hstep & _ & Hst & Hh); [done..|].
  exists o', h', (momentum_rule lr momentum (momentum_buffer o p) g).
  split; [done|]. split; [done|]. split.
  - by rewrite Hh.
  - unfold momentum_buffer at 1. rewrite Hst. simpl.
    by rewrite lookup_insert_eq.
Qed.

Lemma step_momentum_rule_witness :
  ∃ o' h' M,
    SGD_Alternate.step demo_opt1 demo_store = Some (o', h')
    ∧ M = zip_with (λ m x, 9/10 * m + 1/10 * x) [1; 2] [10; 20]
    ∧ data <$> h' !! w0 = Some (zip_with Rminus [1; 2] M)
    ∧ momentum_buffer o' w0 = Some M.
Proof.
  apply (step_momentum_rule demo_opt1 demo_store demo_group w0
           {| data := [1; 2]; grad := Some [10; 20] |} [10; 20]
           (1/10) (9/10)).
  - reflexivity.
  - exact demo_tracked_NoDup.
  - left.
  - left.
  - reflexivity.
  - reflexivity.
  - reflexivity.
  - reflexivity.
Defined.

(** C2.  A parameter whose gradient is [None] when [step] is called keeps
    its value, and its state record is the one it had before: no record is
    created, none is changed. *)
Theorem step_skips_null_gradient o h (p : ident) prm :
  wf o h = true → h !! p = Some prm → grad prm = None →
  ∃ o' h',
    SGD_Alternate.step o h = Some (o', h')
    ∧ h' !! p = Some prm
    ∧ state o' !! p = state o !! p.
Proof.
  intros Hwf Hprm Hg.
  destruct (step_total o h Hwf) as (o' & h' & Hstep & _ & _).
  exists o', h'. split; [done|].
  rewrite step_unfold in Hstep.
  destruct (for_each visit _ _) as [σ'|] eqn:Hrun; simplify_eq/=.
  apply (for_each_invariant visit
           (λ σ0, σ0.2 !! p = Some prm ∧ σ0.1 !! p = state o !! p)
           _ _ _) in Hrun; [done| |done].
  intros σ0 [pg q] σ1 _ [E2 E1] Hvisit. unfold visit in Hvisit; simpl in *.
  destruct (decide (q = p)) as [->|Hne].
  - rewrite (update_param_no_grad pg σ0 p prm E2 Hg) in Hvisit.
    by simplify_eq.
  - destruct (update_param_other _ _ _ _ p Hvisit) as [E1' E2']; [done|].
    by rewrite E1', E2'.
Qed.

Lemma step_skips_null_gradient_witness :
  ∃ o' h',
    SGD_Alternate.step demo_opt1 demo_store = Some (o', h')
    ∧ h' !! w1 = Some {| data := [5]; grad := None |}
    ∧ state o' !! w1 = state demo_opt1 !! w1.
Proof.
  apply (step_skips_null_gradient demo_opt1 demo_store w1
           {| data := [5]; grad := None |}); reflexivity.
Defined.

(** C3.  With the momentum of the group equal to 0, [step] gives a tracked
    parameter with a gradient the value [param - lr * grad] of plain SGD,
    whether it has a momentum buffer already (a later update) or not (its
    first update). *)
Theorem step_zero_momentum_is_plain_sgd o h pg p prm g lr :
  wf o h = true → NoDup (tracked o) →
  pg ∈ param_groups o → p ∈ params pg →
  h !! p = Some prm → grad prm = Some g →
  hyper pg !! "lr" = Some lr → hyper pg !! "momentum" = Some 0 →
  ∃ o' h',
    SGD_Alternate.step o h = Some (o', h')
    ∧ data <$> h' !! p = Some (zip_with (λ θ x, θ - lr * x) (data prm) g).
Proof.
  intros Hwf Hnd Hpg Hp Hprm Hg Hlr Hmom.
  destruct (step_param o h pg p prm g lr 0)
    as (o' & h' & Hstep & _ & _ & Hh); [done..|].
  exists o', h'. split; [done|]. rewrite Hh. simpl. f_equal.
  rewrite momentum_rule_zero.
  - by rewrite zip_with_fmap_r.
  - intros M HM. apply wf_spec in Hwf as [_ Hsh].
    destruct (proj1 (shaped_spec _ _)
                (Hsh p (proj2 (elem_of_tracked o p) (ex_intro _ pg (conj Hpg Hp)))))
      as (prm' & Hprm' & Hlg & HlM). simpl in *.
    rewrite Hprm in Hprm'. injection Hprm' as <-.
    rewrite (Hlg g Hg). by apply HlM.
Qed.

Lemma step_zero_momentum_is_plain_sgd_witness :
  ∃ o' h',
    SGD_Alternate.step demo_opt_plain demo_store = Some (o', h')
    ∧ data <$> h' !! w0
      = Some (zip_with (λ θ x, θ - 1/10 * x) [1; 2] [10; 20]).
Proof.
  apply (step_zero_momentum_is_plain_sgd demo_opt_plain demo_store
           {| params := [w0; w1];
              hyper := <["lr" := 1/10]> (<["momentum" := 0]> ∅) |}
           w0 {| data := [1; 2]; grad := Some [10; 20] |} [10; 20] (1/10)).
  - reflexivity.
  - exact demo_tracked_NoDup.
  - left.
  - left.
  - reflexivity.
  - reflexivity.
  - reflexivity.
  - reflexivity.
Defined.

(** C10.  After [step], every tracked parameter that had a gradient
    satisfies [param_new = param_old - state["momentum_buffer"]]: the stored
    buffer is what was subtracted, on a first update and on a later one. *)
Theorem step_subtracts_stored_buffer o h (p : ident) prm g :
  wf o h = true → NoDup (tracked o) → p ∈ tracked o →
  h !! p = Some prm → grad prm = Some g →
  ∃ o' h' M,
    SGD_Alternate.step o h = Some (o', h')
    ∧ momentum_buffer o' p = Some M
    ∧ data <$> h' !! p = Some (zip_with Rminus (data prm) M).
Proof.
  intros Hwf Hnd (pg & Hpg & Hp)%elem_of_tracked Hprm Hg.
  destruct (proj1 (wf_spec _ _) Hwf) as [Hhyp _].
  destruct (proj1 (hyper_ok_spec pg) (Hhyp pg Hpg))
    as (lr & momentum & Hlr & Hmom).
  destruct (step_param o h pg p prm g lr momentum)
    as (o' & h' & Hstep & _ & Hst & Hh); [done..|].
  exists o', h', (momentum_rule lr momentum (momentum_buffer o p) g).
  split; [done|]. split.
  - unfold momentum_buffer at 1. rewrite Hst. simpl.
    by rewrite lookup_insert_eq.
  - by rewrite Hh.
Qed.

Lemma step_subtracts_stored_buffer_witness :
  ∃ o' h' M,
    SGD_Alternate.step demo_opt1 demo_store = Some (o', h')
    ∧ momentum_buffer o' w0 = Some M
    ∧ data <$> h' !! w0 = Some (zip_with Rminus [1; 2] M).
Proof.
  apply (step_subtracts_stored_buffer demo_opt1 demo_store w0
           {| data := [1; 2]; grad := Some [10; 20] |} [10; 20]).
  - reflexivity.
  - exact demo_tracked_NoDup.
  - left.
  - reflexivity.
  - reflexivity.
Defined.

(** ** Writing hyperparameters *)

Lemma set_hyper_Some o i name v pg :
  param_groups o !! i = Some pg →
  set_hyper o i name v
  = Some {| param_groups :=
              <[i := {| params := params pg;
                        hyper := <[name := v]> (hyper pg) |}]> (param_groups o);
            state := state o |}.
Proof. intros Hpg. unfold set_hyper. by rewrite Hpg. Qed.

Lemma params_insert_same (gs : list ParamGroup) i pg hyp :
  gs !! i = Some pg →
  params <$> <[i := {| params := params pg; hyper := hyp |}]> gs = params <$> gs.
Proof.
  intros Hpg. rewrite list_fmap_insert. simpl.
  apply list_insert_id. by rewrite list_lookup_fmap, Hpg.
Qed.

Lemma hyper_ok_insert pg name v :
  hyper_ok pg = true →
  hyper_ok {| params := params pg; hyper := <[name := v]> (hyper pg) |} = true.
Proof.
  unfold hyper_ok. rewrite !andb_true_iff, !bool_decide_eq_true. simpl.
  rewrite !lookup_insert_is_Some. intros [? ?].
  split; destruct (decide (name = "lr")), (decide (name = "momentum")); auto.
Qed.

(** A write keeps a well-formed optimizer well formed. *)
Lemma set_hyper_wf o h i name v o2 :
  set_hyper o i name v = Some o2 → wf o h = true →
  wf o2 h = true ∧ tracked o2 = tracked o ∧ state o2 = state o.
Proof.
  unfold set_hyper. destruct (param_groups o !! i) as [pg|] eqn:Hpg; [|done].
  simpl. intros [= <-] Hwf.
  assert (Htr : tracked
            {| param_groups :=
                 <[i := {| params := params pg;
                           hyper := <[name := v]> (hyper pg) |}]> (param_groups o);
               state := state o |} = tracked o).
  { unfold tracked; simpl. by rewrite (params_insert_same _ _ pg). }
  split; [|done].
  apply wf_spec in Hwf as [Hhyp Hsh]. apply wf_spec. split.
  - simpl. intros pg' Hin.
    apply list_elem_of_lookup in Hin as [j Hj].
    destruct (decide (i = j)) as [->|Hne].
    + rewrite list_lookup_insert_eq in Hj
        by (by eapply lookup_lt_Some).
      injection Hj as <-. apply hyper_ok_insert, Hhyp.
      by eapply list_elem_of_lookup_2.
    + rewrite list_lookup_insert_ne in Hj by done.
      apply Hhyp. by eapply list_elem_of_lookup_2.
  - rewrite Htr. simpl. apply Hsh.
Qed.

(** C8.  A write of a hyperparameter of a group takes effect on the next
    [step] and on no earlier one.  From any well-formed optimizer:
    - a [step] followed by the write updates a parameter of the group by the
      momentum rule with the hyperparameters the group had before the write,
      and the write leaves the parameters and the state records exactly as
      the [step] left them, whatever is written;
    - the write followed by a [step] updates the parameter by the momentum
      rule with the hyperparameters read from the group as the write left
      it. *)
Theorem hyper_write_observed_by_next_step
    o h i name v pg p prm g lr0 momentum0 lr momentum :
  wf o h = true → NoDup (tracked o) →
  param_groups o !! i = Some pg → p ∈ params pg →
  h !! p = Some prm → grad prm = Some g →
  hyper pg !! "lr" = Some lr0 → hyper pg !! "momentum" = Some momentum0 →
  <[name := v]> (hyper pg) !! "lr" = Some lr →
  <[name := v]> (hyper pg) !! "momentum" = Some momentum →
  (∃ o1 h1 o1' M0,
      run [Step] (o, h) = Some (o1, h1)
      ∧ run [Step; SetHyper i name v] (o, h) = Some (o1', h1)
      ∧ state o1' = state o1
      ∧ M0 = momentum_rule lr0 momentum0 (momentum_buffer o p) g
      ∧ momentum_buffer o1' p = Some M0
      ∧ data <$> h1 !! p = Some (zip_with Rminus (data prm) M0))
  ∧ (∃ o2 o3 h3 M,
      run [SetHyper i name v] (o, h) = Some (o2, h)
      ∧ state o2 = state o
      ∧ run [SetHyper i name v; Step] (o, h) = Some (o3, h3)
      ∧ M = momentum_rule lr momentum (momentum_buffer o p) g
      ∧ momentum_buffer o3 p = Some M
      ∧ data <$> h3 !! p = Some (zip_with Rminus (data prm) M)).
Proof.
  intros Hwf Hnd Hpg Hp Hprm Hg Hlr0 Hmom0 Hlr Hmom. split.
  - destruct (step_param o h pg p prm g lr0 momentum0)
      as (o1 & h1 & Hstep & Hgs & Hst1 & Hh1);
      [done|done|by eapply list_elem_of_lookup_2|done..|].
    exists o1, h1. eexists.
    exists (momentum_rule lr0 momentum0 (momentum_buffer o p) g).
    unfold run; simpl. rewrite Hstep; simpl.
    rewrite (set_hyper_Some o1 i name v pg) by (by rewrite Hgs). simpl.
    split; [done|]. split; [done|]. split; [done|]. split; [done|]. split.
    + unfold momentum_buffer at 1. simpl. rewrite Hst1. simpl.
      by rewrite lookup_insert_eq.
    + by rewrite Hh1.
  - pose proof (set_hyper_Some o i name v pg Hpg) as Hset.
    destruct (set_hyper_wf o h i name v _ Hset Hwf) as (Hwf2 & Htr & Hst).
    set (pg2 := {| params := params pg; hyper := <[name := v]> (hyper pg) |}).
    set (o2 := {| param_groups := <[i := pg2]> (param_groups o);
                  state := state o |}) in *.
    destruct (step_param o2 h pg2 p prm g lr momentum)
      as (o3 & h3 & Hstep & _ & Hst3 & Hh3); [done| |  |done..|].
    { by rewrite <- Htr in Hnd. }
    { apply list_elem_of_lookup. exists i. simpl.
      apply list_lookup_insert_eq. by eapply lookup_lt_Some. }
    exists o2, o3, h3, (momentum_rule lr momentum (momentum_buffer o p) g).
    unfold o2, pg2 in *. clear o2 pg2.
    unfold run; simpl. rewrite Hset; simpl. rewrite Hstep.
    split; [done|]. split; [done|]. split; [done|]. split; [done|]. split.
    + unfold momentum_buffer at 1. rewrite Hst3. simpl.
      by rewrite lookup_insert_eq.
    + by rewrite Hh3.
Qed.

Lemma hyper_write_observed_by_next_step_witness :
  (∃ o1 h1 o1' M0,
      run [Step] (demo_opt1, demo_store) = Some (o1, h1)
      ∧ run [Step; SetHyper 0 "momentum" (8/10)] (demo_opt1, demo_store)
        = Some (o1', h1)
      ∧ state o1' = state o1
      ∧ M0 = momentum_rule (1/10) (9/10) (Some [1; 2]) [10; 20]
      ∧ momentum_buffer o1' w0 = Some M0
      ∧ data <$> h1 !! w0 = Some (zip_with Rminus [1; 2] M0))
  ∧ (∃ o2 o3 h3 M,
      run [SetHyper 0 "momentum" (8/10)] (demo_opt1, demo_store)
        = Some (o2, demo_store)
      ∧ state o2 = state demo_opt1
      ∧ run [SetHyper 0 "momentum" (8/10); Step] (demo_opt1, demo_store)
        = Some (o3, h3)
      ∧ M = momentum_rule (1/10) (8/10) (Some [1; 2]) [10; 20]
      ∧ momentum_buffer o3 w0 = Some M
      ∧ data <$> h3 !! w0 = Some (zip_with Rminus [1; 2] M)).
Proof.
  apply (hyper_write_observed_by_next_step demo_opt1 demo_store 0
           "momentum" (8/10) demo_group w0
           {| data := [1; 2]; grad := Some [10; 20] |} [10; 20]
           (1/10) (9/10) (1/10) (8/10)).
  - reflexivity.
  - exact demo_tracked_NoDup.
  - reflexivity.
  - left.
  - reflexivity.
  - reflexivity.
  - reflexivity.
  - reflexivity.
  - reflexivity.
  - reflexivity.
Defined.

(** ** Export and import *)












(** * Part V: further properties of [SGD_Alternate.step] *)

(** The visits change neither a gradient nor the shape of a parameter. *)
Lemma visits_keep vs σ σ' (p : ident) :
  for_each visit vs σ = Some σ' →
  grad <$> σ'.2 !! p = grad <$> σ.2 !! p
  ∧ (λ prm, length (data prm)) <$> σ'.2 !! p
    = (λ prm, length (data prm)) <$> σ.2 !! p.
Proof.
  apply (for_each_invariant visit
           (λ σ0, grad <$> σ0.2 !! p = grad <$> σ.2 !! p
                  ∧ (λ prm, length (data prm)) <$> σ0.2 !! p
                    = (λ prm, length (data prm)) <$> σ.2 !! p)); [|done].
  intros σ0 [pg q] σ1 _ [E1 E2] Hrun.
  destruct (update_param_keeps _ _ _ _ p Hrun) as [E1' E2'].
  by rewrite E1', E2'.
Qed.

(** X1.  [step] touches tracked parameters only: it returns on a well-formed
    optimizer, and a parameter that is in no group keeps its value, its
    gradient and its state record. *)
Theorem step_leaves_untracked o h (p : ident) :
  wf o h = true → p ∉ tracked o →
  ∃ o' h',
    SGD_Alternate.step o h = Some (o', h')
    ∧ h' !! p = h !! p
    ∧ state o' !! p = state o !! p.
Proof.
  intros Hwf Hp.
  destruct (step_total o h Hwf) as (o' & h' & Hstep & _ & _).
  exists o', h'. split; [done|].
  rewrite step_unfold in Hstep.
  destruct (for_each visit _ _) as [σ'|] eqn:Hrun; simplify_eq/=.
  destruct (visits_other _ _ _ p (eq_ind_r (λ l, p ∉ l) Hp (visits_snd _)) Hrun)
    as [E1 E2].
  done.
Qed.

Lemma step_leaves_untracked_witness :
  ∃ o' h',
    SGD_Alternate.step demo_opt_w0 demo_store
    = Some (o', h')
    ∧ h' !! w1 = demo_store !! w1
    ∧ state o' !! w1 = None.
Proof.
  apply (step_leaves_untracked demo_opt_w0
           demo_store w1).
  - reflexivity.
  - by apply (bool_decide_unpack _).
Defined.

(** X2.  What [step] keeps.  On a well-formed optimizer it returns, the
    groups (parameters and hyperparameters) are as before, every gradient is
    left in place, every parameter keeps its shape, no object appears or
    disappears, and the optimizer is well formed again: the next [step]
    returns too. *)
Theorem step_keeps_groups_gradients_shapes o h :
  wf o h = true →
  ∃ o' h',
    SGD_Alternate.step o h = Some (o', h')
    ∧ param_groups o' = param_groups o
    ∧ wf o' h' = true
    ∧ dom h' = dom h
    ∧ ∀ p : ident,
        grad <$> h' !! p = grad <$> h !! p
        ∧ (λ prm, length (data prm)) <$> h' !! p
          = (λ prm, length (data prm)) <$> h !! p.
Proof.
  intros Hwf.
  destruct (step_total o h Hwf) as (o' & h' & Hstep & Hgs & Hwf').
  exists o', h'. split; [done|]. split; [done|]. split; [done|].
  rewrite step_unfold in Hstep.
  destruct (for_each visit _ _) as [σ'|] eqn:Hrun; simplify_eq/=.
  split.
  - apply set_eq. intros p. rewrite !elem_of_dom.
    destruct (visits_keep _ _ _ p Hrun) as [E _]. simpl in E.
    rewrite <- !(fmap_is_Some grad), E. done.
  - intros p. apply (visits_keep _ _ _ p Hrun).
Qed.

Lemma step_keeps_groups_gradients_shapes_witness :
  ∃ o' h',
    SGD_Alternate.step demo_opt1 demo_store = Some (o', h')
    ∧ param_groups o' = param_groups demo_opt1
    ∧ wf o' h' = true
    ∧ dom h' = dom demo_store
    ∧ ∀ p : ident,
        grad <$> h' !! p = grad <$> demo_store !! p
        ∧ (λ prm, length (data prm)) <$> h' !! p
          = (λ prm, length (data prm)) <$> demo_store !! p.
Proof.
  apply (step_keeps_groups_gradients_shapes demo_opt1 demo_store). reflexivity.
Defined.

Lemma for_each_fixed {A S : Type} (body : S → A → option S) l s :
  (∀ x, x ∈ l → body s x = Some s) → for_each body l s = Some s.
Proof.
  induction l as [|x l IH]; intros Hl; simpl; [done|].
  rewrite (Hl x) by (by left). simpl. apply IH.
  intros y Hy. apply Hl. by right.
Qed.

(** When the iteration for [x] raises from every state the loop can reach
    it in, the loop raises. *)
Lemma for_each_raises {A S : Type} (body : S → A → option S) l1 x l2 s :
  (∀ s1, for_each body l1 s = Some s1 → body s1 x = None) →
  for_each body (l1 ++ x :: l2) s = None.
Proof.
  intros Hx. rewrite for_each_app.
  destruct (for_each body l1 s) as [s1|] eqn:H1; simpl; [|done].
  by rewrite (Hx s1 eq_refl).
Qed.

(** X3.  Without gradients [step] does nothing: when every tracked parameter
    has [grad = None], [step] returns the optimizer and the store as they
    are.  No hyperparameter is read, so none needs to be present. *)
Theorem step_without_gradients_is_identity o h :
  (∀ p, p ∈ tracked o → ∃ prm, h !! p = Some prm ∧ grad prm = None) →
  SGD_Alternate.step o h = Some (o, h).
Proof.
  intros Hno. rewrite step_unfold.
  rewrite for_each_fixed; [by destruct o|].
  intros [pg p] [Hpg Hp]%elem_of_visits.
  destruct (Hno p) as (prm & Hprm & Hg).
  { apply elem_of_tracked. eauto. }
  by apply (update_param_no_grad pg (state o, h) p prm).
Qed.

Lemma step_without_gradients_is_identity_witness :
  SGD_Alternate.step
    {| param_groups := [ {| params := [w1]; hyper := ∅ |} ];
       state := state demo_opt1 |} demo_store
  = Some ({| param_groups := [ {| params := [w1]; hyper := ∅ |} ];
             state := state demo_opt1 |}, demo_store).
Proof.
  apply (step_without_gradients_is_identity
           {| param_groups := [ {| params := [w1]; hyper := ∅ |} ];
              state := state demo_opt1 |} demo_store).
  intros p Hp. apply list_elem_of_singleton in Hp as ->.
  exists {| data := [5]; grad := None |}. split; reflexivity.
Defined.




Lemma update_param_no_lr pg st h (p : ident) prm g :
  h !! p = Some prm → grad prm = Some g → hyper pg !! "lr" = None →
  SGD_Alternate.update_param pg (st, h) p = None.
Proof.
  intros Hp Hg Hlr. unfold SGD_Alternate.update_param.
  rewrite Hp; simpl. rewrite Hg, Hlr.
  destruct (default ∅ (st !! p) !! "momentum_buffer") as [M0|]; simpl;
    [|done].
  by destruct (hyper pg !! "momentum").
Qed.

(** X5.  A group without ["lr"] makes [step] raise as soon as one of its
    parameters has a gradient, with or without a momentum buffer. *)
Theorem step_raises_without_lr o h pg (p : ident) prm g :
  pg ∈ param_groups o → p ∈ params pg →
  h !! p = Some prm → grad prm = Some g → hyper pg !! "lr" = None →
  SGD_Alternate.step o h = None.
Proof.
  intros Hpg Hp Hprm Hg Hlr. rewrite step_unfold.
  destruct (list_elem_of_split (visits (param_groups o)) (pg, p))
    as (l1 & l2 & ->); [by apply elem_of_visits|].
  rewrite for_each_raises; [done|].
  intros [st1 h1] H1.
  change (SGD_Alternate.update_param pg (st1, h1) p = None).
  destruct (visits_keep _ _ _ p H1) as [E1 _]. simpl in E1.
  rewrite Hprm in E1. simpl in E1. rewrite Hg in E1.
  destruct (h1 !! p) as [prm1|] eqn:Hp1; [|done].
  injection E1 as E1.
  by apply (update_param_no_lr pg st1 h1 p prm1 g).
Qed.

Lemma step_raises_without_lr_witness :
  SGD_Alternate.step
    {| param_groups := [ {| params := [w0]; hyper := {[ "momentum" := 9/10 ]} |} ];
       state := ∅ |} demo_store
  = None.
Proof.
  apply (step_raises_without_lr
           {| param_groups :=
                [ {| params := [w0]; hyper := {[ "momentum" := 9/10 ]} |} ];
              state := ∅ |} demo_store
           {| params := [w0]; hyper := {[ "momentum" := 9/10 ]} |}
           w0 {| data := [1; 2]; grad := Some [10; 20] |} [10; 20]).
  - left.
  - left.
  - reflexivity.
  - reflexivity.
  - reflexivity.
Defined.

(** A first visit: without a buffer the momentum is not read. *)
Lemma update_param_first pg st h (p : ident) prm g lr :
  h !! p = Some prm → grad prm = Some g → hyper pg !! "lr" = Some lr →
  st !! p ≫= (.!! "momentum_buffer") = None →
  length g = length (data prm) →
  SGD_Alternate.update_param pg (st, h) p
  = Some (<[p := <["momentum_buffer" := (λ x, lr * x) <$> g]>
                   (default ∅ (st !! p))]> st,
          <[p := {| data := zip_with (λ θ x, θ - lr * x) (data prm) g;
                    grad := Some g |}]> h).
Proof.
  intros Hp Hg Hlr Hbuf Hlen. unfold SGD_Alternate.update_param.
  rewrite Hp; simpl. rewrite Hg, buffer_default, Hbuf, Hlr. simpl.
  rewrite sub__Some by (rewrite length_mul; lia). simpl.
  rewrite mul_comm_fmap. by rewrite zip_with_fmap_r.
Qed.

Lemma fresh_spec o h :
  fresh o h = true ↔
  (∀ pg, pg ∈ param_groups o → is_Some (hyper pg !! "lr"))
  ∧ (∀ p, p ∈ tracked o →
          shaped (state o, h) p = true ∧ momentum_buffer o p = None).
Proof.
  unfold fresh. rewrite andb_true_iff, !forallb_forall. split.
  - intros [H1 H2]. split.
    + intros pg Hpg. apply list_elem_of_In, H1 in Hpg.
      by apply bool_decide_eq_true in Hpg.
    + intros p Hp. apply list_elem_of_In, H2 in Hp.
      apply andb_true_iff in Hp as [? ?%bool_decide_eq_true]. done.
  - intros [H1 H2]. split.
    + intros pg Hpg. apply bool_decide_eq_true, H1. by apply list_elem_of_In.
    + intros p Hp. apply list_elem_of_In, H2 in Hp as [? ?].
      apply andb_true_iff. split; [done|]. by apply bool_decide_eq_true.
Qed.

Lemma visits_fresh_total vs σ :
  NoDup vs.*2 →
  (∀ pg p, (pg, p) ∈ vs →
     is_Some (hyper pg !! "lr") ∧ shaped σ p = true
     ∧ σ.1 !! p ≫= (.!! "momentum_buffer") = None) →
  is_Some (for_each visit vs σ).
Proof.
  revert σ. induction vs as [|[pg p] vs IH]; intros σ Hnd Hvs; [by eexists|].
  rewrite fmap_cons in Hnd. apply NoDup_cons in Hnd as [Hp Hnd]. simpl in Hp.
  destruct (Hvs pg p) as ([lr Hlr] & Hsh & Hbuf); [by left|].
  apply shaped_spec in Hsh as (prm & Hprm & Hlg & _).
  destruct σ as [st h]. simpl in Hprm, Hbuf.
  change (for_each visit ((pg, p) :: vs) (st, h))
    with (SGD_Alternate.update_param pg (st, h) p ≫= for_each visit vs).
  destruct (grad prm) as [g|] eqn:Hg.
  - rewrite (update_param_first pg st h p prm g lr) by auto.
    apply IH; [done|]. intros pg' q Hq.
    assert (q ≠ p) as Hne.
    { intros ->. apply Hp. apply list_elem_of_fmap. by exists (pg', p). }
    destruct (Hvs pg' q) as (Hlr' & Hsh' & Hbuf'); [by right|].
    split; [done|]. unfold shaped in *. simpl in *.
    by rewrite !lookup_insert_ne.
  - rewrite (update_param_no_grad pg (st, h) p prm) by done.
    apply IH; [done|]. intros pg' q Hq. apply Hvs. by right.
Qed.

(** X6.  The first [step] of an optimizer without momentum buffers is plain
    SGD, and it does not read the momentum: with every parameter listed
    once, a learning rate in every group and matching shapes, [step]
    returns, whether or not the groups have a ["momentum"] entry; every
    tracked parameter with a gradient becomes [param - lr * grad], and its
    buffer becomes [lr * grad]. *)
Theorem first_step_is_plain_sgd o h :
  fresh o h = true → NoDup (tracked o) →
  ∃ o' h',
    SGD_Alternate.step o h = Some (o', h')
    ∧ ∀ pg p prm g lr,
        pg ∈ param_groups o → p ∈ params pg →
        h !! p = Some prm → grad prm = Some g → hyper pg !! "lr" = Some lr →
        data <$> h' !! p = Some (zip_with (λ θ x, θ - lr * x) (data prm) g)
        ∧ momentum_buffer o' p = Some ((λ x, lr * x) <$> g).
Proof.
  intros [Hlr Hfr]%fresh_spec Hnd.
  destruct (visits_fresh_total (visits (param_groups o)) (state o, h))
    as [σ' Hrun].
  { by rewrite visits_snd. }
  { intros pg p [Hpg Hp]%elem_of_visits.
    destruct (Hfr p) as [Hsh Hbuf]; [apply elem_of_tracked; eauto|].
    auto. }
  exists {| param_groups := param_groups o; state := σ'.1 |}, σ'.2.
  rewrite step_unfold, Hrun. split; [done|].
  intros pg p prm g lr Hpg Hp Hprm Hg Hlrp.
  destruct (visits_at _ _ _ pg p (eq_ind_r NoDup Hnd (visits_snd _))
              (proj2 (elem_of_visits _ _ _) (conj Hpg Hp)) Hrun)
    as ([st1 h1] & σ2 & E1 & E2 & Hvisit & E3 & E4). simpl in E1, E2.
  destruct (Hfr p) as [Hsh Hbuf]; [apply elem_of_tracked; eauto|].
  apply shaped_spec in Hsh as (prm' & Hprm' & Hlg & _). simpl in Hprm'.
  rewrite Hprm in Hprm'. injection Hprm' as <-.
  rewrite (update_param_first pg st1 h1 p prm g lr) in Hvisit;
    [|congruence|done|done| |by apply Hlg].
  - injection Hvisit as <-. simpl in E3, E4.
    rewrite lookup_insert_eq in E3. rewrite lookup_insert_eq in E4.
    simpl. rewrite E4. split; [done|].
    unfold momentum_buffer. simpl. rewrite E3. simpl.
    by rewrite lookup_insert_eq.
  - rewrite E1. exact Hbuf.
Qed.

Lemma first_step_is_plain_sgd_witness :
  ∃ o' h',
    SGD_Alternate.step
      {| param_groups := [ {| params := [w0; w1]; hyper := {[ "lr" := 1/10 ]} |} ];
         state := ∅ |} demo_store
    = Some (o', h')
    ∧ ∀ pg p prm g lr,
        pg ∈ [ {| params := [w0; w1]; hyper := {[ "lr" := 1/10 ]} |} ] →
        p ∈ params pg →
        demo_store !! p = Some prm → grad prm = Some g →
        hyper pg !! "lr" = Some lr →
        data <$> h' !! p = Some (zip_with (λ θ x, θ - lr * x) (data prm) g)
        ∧ momentum_buffer o' p = Some ((λ x, lr * x) <$> g).
Proof.
  apply (first_step_is_plain_sgd
           {| param_groups :=
                [ {| params := [w0; w1]; hyper := {[ "lr" := 1/10 ]} |} ];
              state := ∅ |} demo_store).
  - reflexivity.
  - by apply (bool_decide_unpack _).
Defined.

(** ** Repeated steps *)

Lemma geometric_closed momentum n :
  (1 - momentum) * geometric momentum n = 1 - momentum ^ n.
Proof. induction n as [|n IH]; simpl; [lra|]. nra. Qed.

Lemma zip_with_minus_zero lr (d g : Tensor.t) :
  length g = length d → zip_with (λ θ x, θ - lr * x * 0) d g = d.
Proof.
  revert g. induction d as [|θ d IH]; intros [|x g] Hlen; simplify_eq/=;
    [done|].
  f_equal; [lra | by apply IH].
Qed.

Lemma zip_with_minus_more lr a b (d g : Tensor.t) :
  zip_with Rminus (zip_with (λ θ x, θ - lr * x * a) d g)
    ((λ x, lr * x * b) <$> g)
  = zip_with (λ θ x, θ - lr * x * (a + b)) d g.
Proof.
  revert g. induction d as [|θ d IH]; intros [|x g]; simpl; [done..|].
  f_equal; [lra | apply IH].
Qed.

Lemma momentum_rule_constant lr momentum c (g : Tensor.t) :
  momentum_rule lr momentum (Some ((λ x, lr * x * c) <$> g)) g
  = (λ x, lr * x * (momentum * c + 1)) <$> g.
Proof.
  simpl. rewrite zip_with_fmap_l.
  induction g as [|x g IH]; simpl; [done|]. f_equal; [lra | apply IH].
Qed.

(** X7.  Steps with the gradient left in place.  From a well-formed
    optimizer in which the parameter has no buffer yet, [n] calls of [step]
    in a row return; the buffer is then [lr * grad * (1 + momentum + ... +
    momentum ^ (n - 1))] and the parameter has moved by [lr * grad] times
    the sum of these factors over the [n] steps. *)
Theorem steps_with_constant_gradient o h pg (p : ident) prm g lr momentum n :
  wf o h = true → NoDup (tracked o) →
  pg ∈ param_groups o → p ∈ params pg →
  h !! p = Some prm → grad prm = Some g →
  hyper pg !! "lr" = Some lr → hyper pg !! "momentum" = Some momentum →
  momentum_buffer o p = None →
  ∃ o' h',
    run (replicate n Step) (o, h) = Some (o', h')
    ∧ h' !! p
      = Some {| data := zip_with (λ θ x, θ - lr * x * travelled momentum n)
                          (data prm) g;
                grad := Some g |}
    ∧ momentum_buffer o' p
      = match n with
        | O => None
        | S _ => Some ((λ x, lr * x * geometric momentum n) <$> g)
        end
    ∧ (1 - momentum) * geometric momentum n = 1 - momentum ^ n.
Proof.
  intros Hwf Hnd Hpg Hp Hprm Hg Hlr Hmom Hbuf.
  assert (Hlen : length g = length (data prm)).
  { apply wf_spec in Hwf as [_ Hsh].
    destruct (proj1 (shaped_spec _ _)
                (Hsh p (proj2 (elem_of_tracked o p)
                          (ex_intro _ pg (conj Hpg Hp)))))
      as (prm' & Hprm' & Hlg & _). simpl in Hprm'.
    rewrite Hprm in Hprm'. injection Hprm' as <-. by apply Hlg. }
  cut (∃ o' h',
         run (replicate n Step) (o, h) = Some (o', h')
         ∧ wf o' h' = true ∧ param_groups o' = param_groups o
         ∧ h' !! p
           = Some {| data := zip_with (λ θ x, θ - lr * x * travelled momentum n)
                               (data prm) g;
                     grad := Some g |}
         ∧ momentum_buffer o' p
           = match n with
             | O => None
             | S _ => Some ((λ x, lr * x * geometric momentum n) <$> g)
             end).
  { intros (o' & h' & Hrun & _ & _ & Hh & Hb). exists o', h'.
    split; [done|]. split; [done|]. split; [done|]. apply geometric_closed. }
  induction n as [|n IH].
  - exists o, h. split; [done|]. split; [done|]. split; [done|].
    split; [|done]. simpl. rewrite zip_with_minus_zero by done.
    rewrite Hprm. f_equal. destruct prm; simpl in *. by rewrite Hg.
  - destruct IH as (o1 & h1 & Hrun & Hwf1 & Hgs1 & Hh1 & Hb1).
    assert (Hnd1 : NoDup (tracked o1)) by (unfold tracked; by rewrite Hgs1).
    assert (Hpg1 : pg ∈ param_groups o1) by (by rewrite Hgs1).
    destruct (step_param o1 h1 pg p _ g lr momentum Hwf1 Hnd1 Hpg1 Hp Hh1
                eq_refl Hlr Hmom)
      as (o2 & h2 & Hstep & Hgs2 & Hst2 & Hh2).
    destruct (step_total o1 h1 Hwf1) as (o2' & h2' & Hstep' & _ & Hwf2).
    rewrite Hstep in Hstep'. injection Hstep' as <- <-.
    exists o2, h2. unfold run. rewrite replicate_S_end, for_each_app.
    fold (run (replicate n Step) (o, h)). rewrite Hrun. simpl.
    rewrite Hstep. simpl. split; [done|]. split; [done|].
    split; [congruence|].
    assert (HM : momentum_rule lr momentum (momentum_buffer o1 p) g
                 = (λ x, lr * x * geometric momentum (S n)) <$> g).
    { rewrite Hb1. destruct n as [|n].
      - simpl. apply list_fmap_ext. intros _ x _. lra.
      - apply momentum_rule_constant. }
    split.
    + rewrite Hh2. simpl. rewrite HM. by rewrite zip_with_minus_more.
    + unfold momentum_buffer at 1. rewrite Hst2. simpl.
      by rewrite lookup_insert_eq, HM.
Qed.

Lemma steps_with_constant_gradient_witness :
  ∃ o' h',
    run (replicate 3 Step) (demo_opt, demo_store) = Some (o', h')
    ∧ h' !! w0
      = Some {| data := zip_with (λ θ x, θ - 1/10 * x * travelled (9/10) 3)
                          [1; 2] [10; 20];
                grad := Some [10; 20] |}
    ∧ momentum_buffer o' w0
      = Some ((λ x, 1/10 * x * geometric (9/10) 3) <$> [10; 20])
    ∧ (1 - 9/10) * geometric (9/10) 3 = 1 - (9/10) ^ 3.
Proof.
  apply (steps_with_constant_gradient demo_opt demo_store demo_group w0
           {| data := [1; 2]; grad := Some [10; 20] |} [10; 20]
           (1/10) (9/10) 3).
  - reflexivity.
  - exact demo_tracked_NoDup.
  - left.
  - left.
  - reflexivity.
  - reflexivity.
  - reflexivity.
  - reflexivity.
  - reflexivity.
Defined.

(** ** The order of the visits *)

Lemma update_param_local pg st h (p : ident) :
  SGD_Alternate.update_param pg (st, h) p
  = prm ← h !! p;
    r ← local_update pg (st !! p) prm;
    Some (partial_alter (λ _, r.1) p st, <[p := r.2]> h).
Proof.
  unfold SGD_Alternate.update_param, local_update.
  destruct (h !! p) as [prm|] eqn:Hp; simpl; [|done].
  destruct (grad prm) as [g|]; simpl.
  - destruct (match _ with Some _ => _ | None => _ end) as [M|]; simpl;
      [|done].
    by destruct (Tensor.sub_ _ _).
  - by rewrite partial_alter_self, insert_id.
Qed.

Lemma update_param_local_Some pg st h (p : ident) prm r :
  h !! p = Some prm → local_update pg (st !! p) prm = Some r →
  SGD_Alternate.update_param pg (st, h) p
  = Some (partial_alter (λ _, r.1) p st, <[p := r.2]> h).
Proof. intros Hp Hr. by rewrite update_param_local, Hp; simpl; rewrite Hr. Qed.

Lemma update_param_local_None pg st h (p : ident) :
  (∀ prm, h !! p = Some prm → local_update pg (st !! p) prm = None) →
  SGD_Alternate.update_param pg (st, h) p = None.
Proof.
  intros Hr. rewrite update_param_local.
  destruct (h !! p) as [prm|]; simpl; [|done]. by rewrite (Hr prm eq_refl).
Qed.

Local Opaque SGD_Alternate.update_param.

(** Visits of two different parameters can be exchanged, also when one of
    them raises. *)
Lemma update_param_commute pg pg' σ (p q : ident) :
  p ≠ q →
  SGD_Alternate.update_param pg σ p
    ≫= (λ σ1, SGD_Alternate.update_param pg' σ1 q)
  = SGD_Alternate.update_param pg' σ q
    ≫= (λ σ1, SGD_Alternate.update_param pg σ1 p).
Proof.
  intros Hne. destruct σ as [st h].
  destruct (h !! p) as [prm|] eqn:Hp; [destruct (local_update pg (st !! p) prm) as [r|] eqn:Hr|];
  (destruct (h !! q) as [prm'|] eqn:Hq; [destruct (local_update pg' (st !! q) prm') as [r'|] eqn:Hr'|]).
  - rewrite (update_param_local_Some pg st h p prm r) by done.
    rewrite (update_param_local_Some pg' st h q prm' r') by done. simpl.
    rewrite (update_param_local_Some pg' _ _ q prm' r')
      by (by rewrite ?lookup_insert_ne, ?lookup_partial_alter_ne).
    rewrite (update_param_local_Some pg _ _ p prm r)
      by (by rewrite ?lookup_insert_ne, ?lookup_partial_alter_ne).
    f_equal. f_equal.
    + by apply partial_alter_partial_alter_ne.
    + by apply insert_insert_ne.
  - rewrite (update_param_local_Some pg st h p prm r) by done.
    rewrite (update_param_local_None pg' st h q)
      by (intros ? ?; congruence).
    simpl. apply update_param_local_None. intros prm0.
    rewrite lookup_insert_ne, lookup_partial_alter_ne by done. congruence.
  - rewrite (update_param_local_Some pg st h p prm r) by done.
    rewrite (update_param_local_None pg' st h q)
      by (intros ? ?; congruence).
    simpl. apply update_param_local_None. intros prm0.
    rewrite lookup_insert_ne by done. congruence.
  - rewrite (update_param_local_None pg st h p) by (intros ? ?; congruence).
    rewrite (update_param_local_Some pg' st h q prm' r') by done. simpl.
    symmetry. apply update_param_local_None. intros prm0.
    rewrite lookup_insert_ne, lookup_partial_alter_ne by done. congruence.
  - rewrite (update_param_local_None pg st h p) by (intros ? ?; congruence).
    by rewrite (update_param_local_None pg' st h q)
      by (intros ? ?; congruence).
  - rewrite (update_param_local_None pg st h p) by (intros ? ?; congruence).
    by rewrite (update_param_local_None pg' st h q)
      by (intros ? ?; congruence).
  - rewrite (update_param_local_None pg st h p) by (intros ? ?; congruence).
    rewrite (update_param_local_Some pg' st h q prm' r') by done. simpl.
    symmetry. apply update_param_local_None. intros prm0.
    rewrite lookup_insert_ne by done. congruence.
  - rewrite (update_param_local_None pg st h p) by (intros ? ?; congruence).
    by rewrite (update_param_local_None pg' st h q)
      by (intros ? ?; congruence).
  - rewrite (update_param_local_None pg st h p) by (intros ? ?; congruence).
    by rewrite (update_param_local_None pg' st h q)
      by (intros ? ?; congruence).
Qed.

Local Transparent SGD_Alternate.update_param.

Lemma visits_permutation vs vs' σ :
  vs ≡ₚ vs' → NoDup vs.*2 → for_each visit vs σ = for_each visit vs' σ.
Proof.
  intros Hperm. revert σ.
  induction Hperm as [|x l l' _ IH|x y l|l l' l'' H1 IH1 H2 IH2]; intros σ Hnd.
  - done.
  - simpl. destruct (visit σ x) as [σ1|]; simpl; [|done].
    apply IH. rewrite fmap_cons in Hnd. by apply NoDup_cons in Hnd as [_ ?].
  - rewrite !fmap_cons in Hnd.
    apply NoDup_cons in Hnd as [Hy _].
    assert (Hne : x.2 ≠ y.2).
    { intros E. apply Hy. rewrite E. by left. }
    change (for_each visit (y :: x :: l) σ)
      with (SGD_Alternate.update_param y.1 σ y.2
            ≫= (λ σ1, SGD_Alternate.update_param x.1 σ1 x.2
                      ≫= for_each visit l)).
    change (for_each visit (x :: y :: l) σ)
      with (SGD_Alternate.update_param x.1 σ x.2
            ≫= (λ σ1, SGD_Alternate.update_param y.1 σ1 y.2
                      ≫= for_each visit l)).
    pose proof (update_param_commute y.1 x.1 σ y.2 x.2 (not_eq_sym Hne)) as Hc.
    destruct (SGD_Alternate.update_param y.1 σ y.2) as [σ1|],
      (SGD_Alternate.update_param x.1 σ x.2) as [σ2|]; simpl in *.
    + by rewrite Hc.
    + by rewrite Hc.
    + by rewrite <- Hc.
    + done.
  - rewrite IH1 by done. apply IH2. by rewrite <- H1.
Qed.

(** X8.  The order of the groups and of the parameters in a group is
    irrelevant.  Two optimizers with the same state that list every
    parameter once and visit the same parameters through the same groups,
    in whatever order, leave the same parameters and the same state behind,
    and raise on the same stores. *)
Theorem step_order_irrelevant o o2 h :
  NoDup (tracked o) → state o2 = state o →
  visits (param_groups o2) ≡ₚ visits (param_groups o) →
  (λ r, (state r.1, r.2)) <$> SGD_Alternate.step o2 h
  = (λ r, (state r.1, r.2)) <$> SGD_Alternate.step o h.
Proof.
  intros Hnd Hst Hperm. rewrite !step_unfold, Hst.
  rewrite (visits_permutation _ _ _ Hperm).
  - by destruct (for_each visit _ _).
  - rewrite Hperm, visits_snd. exact Hnd.
Qed.

Lemma step_order_irrelevant_witness :
  (λ r, (state r.1, r.2))
    <$> SGD_Alternate.step
          {| param_groups :=
               [ {| params := [w1]; hyper := hyper demo_group |};
                 {| params := [w0]; hyper := hyper demo_group |} ];
             state := state demo_opt1 |} demo_store
  = (λ r, (state r.1, r.2))
    <$> SGD_Alternate.step
          {| param_groups :=
               [ {| params := [w0]; hyper := hyper demo_group |};
                 {| params := [w1]; hyper := hyper demo_group |} ];
             state := state demo_opt1 |} demo_store.
Proof.
  apply (step_order_irrelevant
           {| param_groups :=
                [ {| params := [w0]; hyper := hyper demo_group |};
                  {| params := [w1]; hyper := hyper demo_group |} ];
              state := state demo_opt1 |}
           {| param_groups :=
                [ {| params := [w1]; hyper := hyper demo_group |};
                  {| params := [w0]; hyper := hyper demo_group |} ];
              state := state demo_opt1 |} demo_store).
  - by apply (bool_decide_unpack _).
  - reflexivity.
  - apply perm_swap.
Defined.

(** * Part VI: reading and writing hyperparameters *)

(** X9.  A write and the reads after it.  The write raises exactly when the
    index is out of range.  Otherwise the written entry reads back as the
    value written, every other entry of every group reads as before, and
    the parameters of the groups and the state are untouched. *)
Theorem set_hyper_then_get o i name v :
  match set_hyper o i name v with
  | None => (length (param_groups o) ≤ i)%nat
  | Some o' =>
      (i < length (param_groups o))%nat
      ∧ get_hyper o' i name = Some v
      ∧ (∀ j k, j ≠ i ∨ k ≠ name → get_hyper o' j k = get_hyper o j k)
      ∧ params <$> param_groups o' = params <$> param_groups o
      ∧ state o' = state o
  end.
Proof.
  unfold set_hyper. destruct (param_groups o !! i) as [pg|] eqn:Hpg; simpl.
  - assert (Hi : (i < length (param_groups o))%nat)
      by (by eapply lookup_lt_Some).
    split; [done|]. unfold get_hyper; simpl. split; [|split; [|split]].
    + rewrite list_lookup_insert_eq by done. simpl. apply lookup_insert_eq.
    + intros j k Hjk. destruct (decide (j = i)) as [->|Hj].
      * rewrite list_lookup_insert_eq, Hpg by done. simpl.
        destruct Hjk as [?|Hk]; [done|]. by rewrite lookup_insert_ne.
      * by rewrite list_lookup_insert_ne.
    + by apply params_insert_same.
    + done.
  - by apply lookup_ge_None.
Qed.

(** Writing into the groups one index after the other. *)
Lemma set_hyper_prefix o name v k :
  (k ≤ length (param_groups o))%nat →
  for_each (λ o0 i, set_hyper o0 i name v) (seq 0 k) o
  = Some {| param_groups :=
              ((λ pg, {| params := params pg;
                         hyper := <[name := v]> (hyper pg) |})
                 <$> take k (param_groups o)) ++ drop k (param_groups o);
            state := state o |}.
Proof.
  induction k as [|k IH]; intros Hk.
  - simpl. rewrite drop_0. by destruct o.
  - rewrite seq_S, for_each_app, IH by lia. simpl.
    destruct (lookup_lt_is_Some_2 (param_groups o) k) as [pg Hpg]; [lia|].
    unfold set_hyper; simpl.
    rewrite lookup_app_r; rewrite length_fmap, length_take; [|lia].
    replace (k - k `min` length (param_groups o))%nat with 0%nat by lia.
    rewrite lookup_drop, Nat.add_0_r, Hpg. simpl. do 2 f_equal.
    rewrite (take_S_r _ _ pg) by done. rewrite fmap_app. simpl.
    rewrite <- (assoc_L (++)). simpl.
    rewrite (drop_S _ pg k) by done.
    rewrite insert_app_r_alt; rewrite length_fmap, length_take; [|lia].
    by replace (k - k `min` length (param_groups o))%nat with 0%nat by lia.
Qed.

(** X10.  The loop [for pg in optimizer.param_groups: pg[name] = v] is the
    single write done at every index in turn; after it every group reads
    the value written, all other entries read as before, and the parameters
    of the groups and the state are untouched. *)
Theorem set_hyper_all_is_every_write o name v :
  for_each (λ o0 i, set_hyper o0 i name v)
    (seq 0 (length (param_groups o))) o
  = Some (set_hyper_all o name v)
  ∧ (∀ i, (i < length (param_groups o))%nat →
          get_hyper (set_hyper_all o name v) i name = Some v)
  ∧ (∀ i k, k ≠ name →
            get_hyper (set_hyper_all o name v) i k = get_hyper o i k)
  ∧ params <$> param_groups (set_hyper_all o name v)
    = params <$> param_groups o
  ∧ state (set_hyper_all o name v) = state o.
Proof.
  split; [|split; [|split; [|split]]].
  - rewrite set_hyper_prefix by done.
    by rewrite firstn_all, drop_all, app_nil_r.
  - intros i Hi. unfold get_hyper, set_hyper_all; simpl.
    destruct (lookup_lt_is_Some_2 (param_groups o) i Hi) as [pg Hpg].
    rewrite list_lookup_fmap, Hpg. simpl. apply lookup_insert_eq.
  - intros i k Hk. unfold get_hyper, set_hyper_all; simpl.
    rewrite list_lookup_fmap. destruct (param_groups o !! i); simpl; [|done].
    by rewrite lookup_insert_ne.
  - unfold set_hyper_all; simpl. rewrite <- list_fmap_compose.
    by apply list_fmap_ext.
  - done.
Qed.

(** X11.  Writes compose as dict assignments do: of two writes to the same
    entry the second one stays, and writes to different entries can be
    exchanged. *)
Theorem set_hyper_twice o i j k k' v v' :
  (set_hyper o i k v ≫= (λ o1, set_hyper o1 i k v') = set_hyper o i k v')
  ∧ (i ≠ j ∨ k ≠ k' →
     set_hyper o i k v ≫= (λ o1, set_hyper o1 j k' v')
     = set_hyper o j k' v' ≫= (λ o1, set_hyper o1 i k v)).
Proof.
  split.
  - unfold set_hyper. destruct (param_groups o !! i) as [pg|] eqn:Hpg; simpl;
      [|done].
    rewrite list_lookup_insert_eq by (by eapply lookup_lt_Some). simpl.
    by rewrite list_insert_insert_eq, insert_insert_eq.
  - intros Hne. unfold set_hyper.
    destruct (param_groups o !! i) as [pg|] eqn:Hpg,
      (param_groups o !! j) as [pg'|] eqn:Hpg'; simpl.
    + destruct (decide (i = j)) as [->|Hij].
      * destruct Hne as [?|Hk]; [done|].
        rewrite !list_lookup_insert_eq by (by eapply lookup_lt_Some). simpl.
        rewrite !list_insert_insert_eq. simplify_eq.
        by rewrite insert_insert_ne.
      * rewrite !list_lookup_insert_ne, Hpg, Hpg' by done. simpl.
        by rewrite list_insert_insert_ne.
    + destruct (decide (i = j)) as [->|Hij]; [congruence|].
      by rewrite list_lookup_insert_ne, Hpg' by done.
    + destruct (decide (i = j)) as [->|Hij]; [congruence|].
      by rewrite list_lookup_insert_ne, Hpg by done.
    + done.
Qed.

(** * Part VII: the training and testing loops *)

Section training_facts.
Context {W B P M : Type} `{!Collaborators W B P M}.
Implicit Types (loss_fn performance : P → B → R) (w : W).

Lemma train_epochs_app loss_fn performance l1 l2 w meters :
  train_epochs loss_fn performance (l1 ++ l2) w meters
  = result_bind (train_epochs loss_fn performance l1 w meters)
      (λ '(w1, meters1), train_epochs loss_fn performance l2 w1 meters1).
Proof.
  revert w meters. induction l1 as [|e l1 IH]; intros w meters; simpl; [done|].
  unfold call. simpl.
  destruct (train_epoch _ _ _ _ _) as [[[w1 lm] pm]|e']; simpl; [|done].
  apply IH.
Qed.

Lemma train_epochs_world loss_fn performance l w meters :
  result_bind (train_epochs loss_fn performance l w meters)
    (λ '(w1, _), Returned w1)
  = after_epochs loss_fn performance (length l) w.
Proof.
  revert w meters. induction l as [|e l IH] using rev_ind; intros w meters;
    [done|].
  rewrite train_epochs_app, length_app, Nat.add_1_r. simpl.
  rewrite <- (IH w meters).
  destruct (train_epochs loss_fn performance l w meters) as [[w1 m1]|e'];
    simpl; [|done].
  unfold call. simpl.
  by destruct (train_epoch _ _ _ _ _) as [[[w2 lm] pm]|e'].
Qed.

(** X12.  What the first [train_model] returns.  Without epochs it raises
    [UnboundLocalError], since the meters are bound inside the loop only.
    With [n + 1] epochs it returns what the last epoch alone measured: the
    meters are those of one [train_epoch], started with fresh meters on the
    world the first [n] epochs left. *)
Theorem train_model_returns_last_epoch loss_fn performance w n :
  train_model loss_fn performance w 0 = Raised UnboundLocalError
  ∧ train_model loss_fn performance w (S n)
    = result_bind (after_epochs loss_fn performance n (train_mode w)) (λ w_n,
      result_bind
        (train_epoch loss_fn performance w_n AverageMeter AverageMeter)
        (λ '(w', loss_meter, performance_meter),
           Returned (w', (meter_sum loss_meter, meter_avg performance_meter)))).
Proof.
  split; [done|]. unfold train_model.
  rewrite seq_S, train_epochs_app. simpl.
  pose proof (train_epochs_world loss_fn performance (seq 0 n)
                (train_mode w) None) as Hw.
  rewrite length_seq in Hw. rewrite <- Hw. clear Hw.
  destruct (train_epochs loss_fn performance (seq 0 n) (train_mode w) None)
    as [[w1 m1]|e']; simpl; [|done].
  unfold call. simpl.
  by destruct (train_epoch _ _ _ _ _) as [[[w2 lm] pm]|e'].
Qed.

(** X13.  The second and the third [train_model] never return.  Without
    epochs they raise [UnboundLocalError] like the first one; with epochs
    they raise in the first epoch, [TypeError] at the call of [train_epoch],
    which gets seven arguments for its eight parameters (in the third one
    the read of the learning rate for [print] can raise before it). *)
Theorem later_train_models_raise loss_fn performance lr_scheduler w n :
  train_model_decay loss_fn performance w n
  = Raised (match n with O => UnboundLocalError | S _ => TypeError end)
  ∧ train_model_scheduler loss_fn performance lr_scheduler w n
    = Raised (match n with
              | O => UnboundLocalError
              | S _ => match read_lr (train_mode w) with
                       | Raised e => e
                       | Returned _ => TypeError
                       end
              end).
Proof.
  split.
  - destruct n as [|n]; [done|].
    unfold train_model_decay. simpl. unfold decay_head, epoch_head. simpl.
    done.
  - destruct n as [|n]; [done|].
    unfold train_model_scheduler. simpl.
    by destruct (read_lr (train_mode w)).
Qed.

Lemma test_batches_performance (loss_fn : option (P → B → R)) performance w
    dataloader loss_meter performance_meter :
  (foldl (test_batch loss_fn performance w)
     (loss_meter, performance_meter) dataloader).2
  = (foldl (test_batch None performance w)
       (None, performance_meter) dataloader).2
  ∧ (is_Some (foldl (test_batch loss_fn performance w)
                (loss_meter, performance_meter) dataloader).1
     ↔ is_Some loss_meter).
Proof.
  revert loss_meter performance_meter.
  induction dataloader as [|b dl IH]; intros lm pm; simpl; [done|].
  destruct (IH (match loss_fn, lm with
                | Some f, Some m =>
                    Some (update m (f (forward w b) b) (batch_size b))
                | _, _ => lm
                end)
               (update pm (performance (forward w b) b) (batch_size b)))
    as [E1 E2].
  split; [exact E1|]. rewrite E2.
  destruct loss_fn, lm; simpl; split; intros [? ?]; by eauto.
Qed.

(** X14.  The performance [test_model] measures does not depend on the loss
    function: with or without one, the second component of the result is
    the same.  The first component is [None] exactly when no loss function
    is passed. *)
Theorem test_model_performance_ignores_loss
    (loss_fn : option (P → B → R)) performance w :
  (test_model loss_fn performance w).2 = (test_model None performance w).2
  ∧ (is_Some (test_model loss_fn performance w).1 ↔ is_Some loss_fn).
Proof.
  unfold test_model. destruct (batches (eval_mode w)) as [dl w1].
  destruct (test_batches_performance loss_fn performance w1 dl
              ((λ _, AverageMeter) <$> loss_fn) AverageMeter) as [E1 E2].
  destruct (foldl (test_batch loss_fn performance w1) _ dl) as [lm pm].
  destruct (foldl (test_batch None performance w1) _ dl) as [lm' pm'].
  simpl in *. split; [by rewrite E1|].
  rewrite fmap_is_Some, E2, fmap_is_Some. done.
Qed.






End training_facts.

(** C4.  The schedule is not reached.  The [train_model] with the manual
    decay, called for 15 epochs on an optimizer with the learning rate 0.1,
    raises [TypeError] in epoch 0, at the call of [train_epoch] with seven
    arguments for its eight parameters; so does the [train_model] that
    takes the scheduler.  Epoch 0 is no milestone: the decay statement has
    left the optimizer as it was, with the learning rate 0.1, which never
    becomes 0.01 or 0.001. *)
Theorem decay_schedule_not_reached :
  train_model_decay (Collaborators0 := demo_collaborators [[10; 20]])
    (λ _ _, 1) (λ _ _, 1/2) (demo_opt, demo_store) 15
  = Raised TypeError
  ∧ train_model_scheduler (Collaborators0 := demo_collaborators [[10; 20]])
      (λ _ _, 1) (λ _ _, 1/2) true (demo_opt, demo_store) 15
    = Raised TypeError
  ∧ decay_head (Collaborators0 := demo_collaborators [[10; 20]])
      0 (demo_opt, demo_store)
    = Returned (demo_opt, demo_store)
  ∧ get_hyper demo_opt 0 "lr" = Some (1/10).
Proof. repeat split; reflexivity. Qed.

(** * Part VIII: the decay statement *)

(** X15.  The decay statement of the second [train_model], [if epoch in
    (6, 11): for pg in optimizer.param_groups: pg["lr"] *= .1].  When it
    returns, the groups have the parameters and the hyperparameters they
    had, except that at the epochs 6 and 11 every learning rate is
    multiplied by 0.1.  It raises only at the epochs 6 and 11, and only when
    a group has no ["lr"] entry. *)
Theorem decay_statement epoch gs :
  match epoch_head epoch gs with
  | Some gs' =>
      params <$> gs' = params <$> gs
      ∧ Forall2
          (λ pg pg', ∀ key,
             hyper pg' !! key
             = if decide (key = "lr" ∧ epoch ∈ [6%nat; 11%nat])
               then (λ lr, lr * (1/10)) <$> hyper pg !! "lr"
               else hyper pg !! key)
          gs gs'
  | None =>
      epoch ∈ [6%nat; 11%nat] ∧ ∃ pg, pg ∈ gs ∧ hyper pg !! "lr" = None
  end.
Proof.
  unfold epoch_head. case_bool_decide as Hep.
  - unfold decay_lr. destruct (mapM decay_group gs) as [gs'|] eqn:Hm.
    + apply mapM_Some_1 in Hm. split.
      * induction Hm as [|pg pg' gs gs' Hd _ IH]; [done|].
        simpl. f_equal; [|done]. unfold decay_group in Hd.
        destruct (hyper pg !! "lr"); simplify_eq/=. done.
      * eapply Forall2_impl; [exact Hm|]. intros pg pg' Hd key.
        unfold decay_group in Hd.
        destruct (hyper pg !! "lr") as [lr|] eqn:Hlr; simplify_eq/=.
        case_decide as Hkey.
        -- destruct Hkey as [-> _]. rewrite lookup_insert_eq.
           by rewrite ?Hlr.
        -- rewrite lookup_insert_ne; [done|]. intros <-. by apply Hkey.
    + split; [done|].
      assert (Hno : ¬ Forall (is_Some ∘ decay_group) gs).
      { intros Hall%mapM_is_Some_2. rewrite Hm in Hall. by destruct Hall. }
      apply not_Forall_Exists in Hno; [|apply _].
      apply Exists_exists in Hno as (pg & Hpg & Hpg').
      exists pg. split; [done|]. simpl in Hpg'. unfold decay_group in Hpg'.
      destruct (hyper pg !! "lr"); [|done]. destruct Hpg'. by eexists.
  - split; [done|]. apply Forall_Forall2_diag, Forall_forall.
    intros pg _ key. case_decide as Hkey; [|done]. by destruct Hkey.
Qed.

(** * Part IX: an empty data loader *)

Section training_on_nothing.
Context {W B P M : Type} `{!Collaborators W B P M}.

Lemma train_epochs_empty (loss_fn performance : P → B → R) l (w : W) meters :
  (∀ w', (batches w').1 = []) →
  train_epochs loss_fn performance l w meters
  = Returned (Nat.iter (length l) (λ w', (batches w').2) w,
              match l with
              | [] => meters
              | _ :: _ => Some (AverageMeter, AverageMeter)
              end).
Proof.
  intros Hempty. revert w meters.
  induction l as [|e l IH]; intros w meters; [done|].
  simpl. unfold call, train_epoch. simpl.
  specialize (Hempty w) as Hw.
  destruct (batches w) as [dl w1] eqn:Hb.
  simpl in Hw. subst dl. simpl. rewrite IH.
  set (next := λ w' : W, (batches w').2).
  assert (w1 = next w) as -> by (unfold next; by rewrite Hb).
  rewrite <- Nat.iter_succ_r. by destruct l.
Qed.

(** X18.  On a data loader without mini-batches the first [train_model]
    returns for every positive number of epochs without calling
    [optimizer.step()] once: the result is the sum and the average of a
    meter nothing was added to. *)
Theorem train_model_on_empty_loader
    (loss_fn performance : P → B → R) (w : W) n :
  (∀ w', (batches w').1 = []) →
  train_model loss_fn performance w (S n)
  = Returned (Nat.iter (S n) (λ w', (batches w').2) (train_mode w),
              (meter_sum AverageMeter, meter_avg AverageMeter)).
Proof.
  intros Hempty. unfold train_model.
  rewrite train_epochs_empty by done. by rewrite length_seq.
Qed.

End training_on_nothing.

Lemma train_model_on_empty_loader_witness :
  train_model (Collaborators0 := demo_collaborators [])
    (λ _ _, 0) (λ _ _, 0) (demo_opt, demo_store) 2
  = Returned ((demo_opt, demo_store), (0, 0 / INR 0)).
Proof.
  apply (train_model_on_empty_loader (Collaborators0 := demo_collaborators [])
           (λ _ _, 0) (λ _ _, 0) (demo_opt, demo_store) 1).
  reflexivity.
Defined.
